(** * Dynamo-datamodel: expression attributes, table parameters and model codec

    A shallow embedding of [ExpressionAttributes], of the parameter builders
    of [Table] and of [Model.splitTableData], together with the update
    compiler and the split-key field as the design document describes them.

    JavaScript strings are modelled as [string], numbers that only count
    (the alias counters) as [nat], objects as insertion-ordered property
    lists with a finite-map view. *)

From Stdlib Require Import ZArith Ascii String.
From stdpp Require Import gmap strings list fin_maps pretty.

Set Default Proof Using "Type".
#[local] Set Warnings "-register-all".

(** ** JavaScript string primitives *)

Module JsString.

(** [s.split(sep)] for a one-character separator. *)
Fixpoint split (sep : ascii) (s : string) : list string :=
  match s with
  | "" => [""]
  | String a s' =>
      if Ascii.eqb a sep then "" :: split sep s'
      else match split sep s' with
           | [] => [String a ""]
           | x :: xs => String a x :: xs
           end
  end.

(** [l.join(sep)]. *)
Fixpoint join (sep : string) (l : list string) : string :=
  match l with
  | [] => ""
  | [x] => x
  | x :: xs => x +:+ sep +:+ join sep xs
  end.

(** [s.endsWith(c)] for a one-character argument. *)
Fixpoint endsWith (s : string) (c : ascii) : bool :=
  match s with
  | "" => false
  | String a "" => Ascii.eqb a c
  | String _ s' => endsWith s' c
  end.

(** [s.indexOf(c)]: position of the first occurrence, [-1] when absent. *)
Fixpoint indexOf (s : string) (c : ascii) : Z :=
  match s with
  | "" => (-1)%Z
  | String a s' =>
      if Ascii.eqb a c then 0%Z
      else let i := indexOf s' c in
           if (i <? 0)%Z then (-1)%Z else (i + 1)%Z
  end.

(** [s.substring(start, end)]: both indices are clamped to
    [0 .. s.length] and swapped when [start > end]. *)
Definition substring (s : string) (start end_ : Z) : string :=
  let len := Z.of_nat (String.length s) in
  let a := Z.max 0 (Z.min start len) in
  let b := Z.max 0 (Z.min end_ len) in
  let lo := Z.min a b in
  let hi := Z.max a b in
  String.substring (Z.to_nat lo) (Z.to_nat (hi - lo)) s.

(** [s.substring(start)]. *)
Definition substringFrom (s : string) (start : Z) : string :=
  substring s start (Z.of_nat (String.length s)).

(** Occurrence of a character in a string. *)
Fixpoint contains (c : ascii) (s : string) : bool :=
  match s with
  | "" => false
  | String a s' => Ascii.eqb a c || contains c s'
  end.

End JsString.

(** ** JavaScript objects

    An object is the list of its own properties in creation order, which is
    the order [for ... in] and [Object.keys] visit them (the property names
    used here, attribute names and aliases starting with [#] or [:], are
    not array indices).  [get] reads own properties, which is what the
    code does wherever the name comes from the keys of the object itself;
    a read that may fall through to the prototype is [Ordinary.get]. *)

Module Obj.

Definition t (V : Type) : Type := list (string * V).

Section Ops.
Context {V : Type}.

(** [o[k]], [None] standing for a missing property. *)
Fixpoint get (o : t V) (k : string) : option V :=
  match o with
  | [] => None
  | (k', v) :: o' => if String.eqb k' k then Some v else get o' k
  end.

(** [o[k] = v]: an existing property keeps its place. *)
Fixpoint set (o : t V) (k : string) (v : V) : t V :=
  match o with
  | [] => [(k, v)]
  | (k', v') :: o' =>
      if String.eqb k' k then (k', v) :: o' else (k', v') :: set o' k v
  end.

(** [delete o[k]]. *)
Fixpoint delete (o : t V) (k : string) : t V :=
  match o with
  | [] => []
  | (k', v') :: o' =>
      if String.eqb k' k then delete o' k else (k', v') :: delete o' k
  end.

(** [Object.keys(o)]. *)
Definition keys (o : t V) : list string := o.*1.

(** [{ ...target, ...src }] continued on an object under construction:
    every own key of [src], in order, is assigned on [target]. *)
Definition spread (target src : t V) : t V :=
  fold_left (fun acc k =>
               match get src k with
               | Some v => set acc k v
               | None => acc
               end) (keys src) target.

(** The finite map an object denotes. *)
Definition to_map (o : t V) : gmap string V := list_to_map o.
End Ops.

End Obj.

(** ** JavaScript values

    The values that travel through attribute maps and request objects: data,
    arrays and plain objects (as an object literal or [JSON.parse] makes
    them, every property writable), and the objects of the runtime that a
    plain object inherits from [Object.prototype]. *)

Inductive builtin : Type :=
| ObjectFunction                      (* [Object] *)
| ObjectPrototype                     (* [Object.prototype] *)
| ObjectPrototypeMethod (name : string).
                                      (* [Object.prototype.<name>] *)

Inductive jsval : Type :=
| VUndefined
| VNull
| VBool (b : bool)
| VNum (n : Z)
| VStr (s : string)
| VArr (l : list jsval)
| VObj (o : list (string * jsval))
| VBuiltin (b : builtin).

(** [v === undefined]. *)
Definition is_undefined (v : jsval) : bool :=
  match v with VUndefined => true | _ => false end.

(** ** Plain objects and [Object.prototype]

    An object made by [{}] has [Object.prototype] for its prototype.  A
    read [o[name]] of a name [o] does not own goes on to the prototype.
    So does an assignment [o[name] = value]: it creates an own property
    of [o], unless the prototype chain answers the name with a setter or
    with a read-only property, in which case the assignment fails; the
    files of the repository are modules, whose code is strict, where that
    failure is a [TypeError].  [Object.prototype] is taken as the runtime
    provides it, nothing added to it and nothing removed. *)

Module Ordinary.

(** The function-valued members of [Object.prototype], [constructor]
    apart. *)
Definition prototypeMethods : list string :=
  ["__defineGetter__"; "__defineSetter__"; "hasOwnProperty";
   "__lookupGetter__"; "__lookupSetter__"; "isPrototypeOf";
   "propertyIsEnumerable"; "toString"; "valueOf"; "toLocaleString"].

(** [o[name]] for a name that [o] does not own; [__proto__] is a getter
    that answers the prototype of [o]. *)
Definition inherited (name : string) : jsval :=
  if String.eqb name "constructor" then VBuiltin ObjectFunction
  else if String.eqb name "__proto__" then VBuiltin ObjectPrototype
  else if bool_decide (name ∈ prototypeMethods)
       then VBuiltin (ObjectPrototypeMethod name)
  else VUndefined.

(** [o[name]]. *)
Definition get (o : Obj.t jsval) (name : string) : jsval :=
  match Obj.get o name with
  | Some v => v
  | None => inherited name
  end.

(** How [o[name] = value] ends when [o] does not own [name]. *)
Inductive Assignment : Type :=
| CreatesProperty
| CallsProtoSetter
| Throws.

(** Every member of [Object.prototype] is writable, [__proto__] apart,
    which has a setter. *)
Definition throughObjectPrototype (name : string) : Assignment :=
  if String.eqb name "__proto__" then CallsProtoSetter else CreatesProperty.

(** What cannot be assigned through a function: [length] and [name] are
    read-only, [arguments] and [caller] have setters that throw. *)
Definition functionLocked : list string :=
  ["length"; "name"; "arguments"; "caller"].

(** The end of [o[name] = value] by the prototype of [o], for a name [o]
    does not own.  A plain object and an array hold writable properties
    and inherit from [Object.prototype] in turn; [Object] has a read-only
    [prototype] besides what every function has. *)
Definition assignment (proto : jsval) (name : string) : Assignment :=
  match proto with
  | VNull => CreatesProperty
  | VObj props =>
      match Obj.get props name with
      | Some _ => CreatesProperty
      | None => throughObjectPrototype name
      end
  | VBuiltin ObjectFunction =>
      if bool_decide (name ∈ "prototype" :: functionLocked) then Throws
      else throughObjectPrototype name
  | VBuiltin (ObjectPrototypeMethod _) =>
      if bool_decide (name ∈ functionLocked) then Throws
      else throughObjectPrototype name
  | _ => throughObjectPrototype name
  end.

(** What the setter of [__proto__] takes for a prototype. *)
Definition isObjectOrNull (v : jsval) : bool :=
  match v with
  | VNull | VArr _ | VObj _ | VBuiltin _ => true
  | _ => false
  end.

(** [o[name] = value] on an object given by its own properties and its
    prototype; [None] when the assignment throws. *)
Definition assign (o : Obj.t jsval) (proto : jsval) (name : string)
  (value : jsval) : option (Obj.t jsval * jsval) :=
  match Obj.get o name with
  | Some _ => Some (Obj.set o name value, proto)
  | None =>
      match assignment proto name with
      | CreatesProperty => Some (Obj.set o name value, proto)
      | CallsProtoSetter =>
          Some (o, if isObjectOrNull value then value else proto)
      | Throws => None
      end
  end.

End Ordinary.

(** ** ExpressionAttributes (ExpressionAttributes.ts) *)

Module ExpressionAttributes.

Record t : Type := mk {
  isReservedName : string -> bool;
  isValidName : string -> bool;
  treatNameAsPath : bool;
  names : Obj.t string;
  nextName : nat;
  values : Obj.t jsval;
  nextValue : nat
}.

(** [new ExpressionAttributes()]: the field initialisers. *)
Definition new : t :=
  {| isReservedName := fun _ => false;
     isValidName := fun _ => false;
     treatNameAsPath := true;
     names := [];
     nextName := 0;
     values := [];
     nextValue := 0 |}.

Definition withNames (ea : t) (ns : Obj.t string) (next : nat) : t :=
  {| isReservedName := isReservedName ea;
     isValidName := isValidName ea;
     treatNameAsPath := treatNameAsPath ea;
     names := ns;
     nextName := next;
     values := values ea;
     nextValue := nextValue ea |}.

Definition withValues (ea : t) (vs : Obj.t jsval) (next : nat) : t :=
  {| isReservedName := isReservedName ea;
     isValidName := isValidName ea;
     treatNameAsPath := treatNameAsPath ea;
     names := names ea;
     nextName := nextName ea;
     values := vs;
     nextValue := next |}.

(** The loop [for (const key in names) if (names[key] === name) return key]:
    the first key, in enumeration order, whose value is [name]. *)
Fixpoint forInNames (ns : Obj.t string) (ks : list string) (name : string)
  : option string :=
  match ks with
  | [] => None
  | key :: ks' =>
      match Obj.get ns key with
      | Some v => if String.eqb v name then Some key
                  else forInNames ns ks' name
      | None => forInNames ns ks' name
      end
  end.

Definition addName (name : string) (ea : t) : string * t :=
  if isReservedName ea name then
    let attName := "#" +:+ name in
    (attName, withNames ea (Obj.set (names ea) attName name) (nextName ea))
  else if negb (isValidName ea name) then
    match forInNames (names ea) (Obj.keys (names ea)) name with
    | Some key => (key, ea)
    | None =>
        let attName := "#n" +:+ pretty (nextName ea) in
        (attName,
         withNames ea (Obj.set (names ea) attName name) (S (nextName ea)))
    end
  else (name, ea).

(** The callback handed to [reduce] in [addPath]; [prev] is the array
    being filled and the instance is threaded along. *)
Definition addSegment (acc : list string * t) (curr : string)
  : list string * t :=
  let '(prev, ea) := acc in
  if JsString.endsWith curr "]" then
    let beginBracket := JsString.indexOf curr "[" in
    let '(listName, ea') :=
      addName (JsString.substring curr 0 beginBracket) ea in
    (prev ++ [listName +:+ JsString.substringFrom curr beginBracket], ea')
  else
    let '(a, ea') := addName curr ea in
    (prev ++ [a], ea').

Definition addPath (name : string) (ea : t) : string * t :=
  if treatNameAsPath ea then
    let '(pathList, ea') :=
      fold_left addSegment (JsString.split "." name) ([], ea) in
    (JsString.join "." pathList, ea')
  else addName name ea.

Definition addValue (value : jsval) (ea : t) : string * t :=
  let name := ":v" +:+ pretty (nextValue ea) in
  (name, withValues ea (Obj.set (values ea) name value) (S (nextValue ea))).

Definition getPaths (ea : t) : Obj.t string := names ea.
Definition getValues (ea : t) : Obj.t jsval := values ea.

Definition reset (ea : t) : t :=
  withValues (withNames ea [] 0) [] 0.

(** The names object as it is stored into a request object. *)
Definition namesValue (ns : Obj.t string) : jsval :=
  VObj (prod_map id VStr <$> ns).

Definition addParams (ea : t) (input : Obj.t jsval) : Obj.t jsval :=
  let input :=
    if (0 <? length (Obj.keys (names ea)))%nat
    then Obj.set input "ExpressionAttributeNames" (namesValue (names ea))
    else input in
  let input :=
    if (0 <? length (Obj.keys (values ea)))%nat
    then Obj.set input "ExpressionAttributeValues" (VObj (values ea))
    else input in
  input.

(** A client of the instance: the public calls that allocate aliases. *)
Inductive Request : Type :=
| ReqPath (path : string)
| ReqValue (value : jsval).

Definition request (r : Request) (ea : t) : string * t :=
  match r with
  | ReqPath p => addPath p ea
  | ReqValue v => addValue v ea
  end.

(** A sequence of calls on one instance, with the aliases returned. *)
Fixpoint requests (rs : list Request) (ea : t) : list string * t :=
  match rs with
  | [] => ([], ea)
  | r :: rs' =>
      let '(a, ea1) := request r ea in
      let '(outs, ea2) := requests rs' ea1 in
      (a :: outs, ea2)
  end.

Definition isReqValue (r : Request) : bool :=
  match r with ReqValue _ => true | ReqPath _ => false end.

(** Number of [addValue] calls in a sequence of calls. *)
Definition countValues (rs : list Request) : nat :=
  length (filter (fun r => isReqValue r = true) rs).

(** The raw name a path segment asks an alias for, and the text that
    follows the alias in the output, as [addSegment] computes them. *)
Definition segmentName (curr : string) : string :=
  if JsString.endsWith curr "]"
  then JsString.substring curr 0 (JsString.indexOf curr "[")
  else curr.

Definition segmentSuffix (curr : string) : string :=
  if JsString.endsWith curr "]"
  then JsString.substringFrom curr (JsString.indexOf curr "[")
  else "".

(** The raw names one [addPath] call asks aliases for, in order. *)
Definition pathNames (asPath : bool) (path : string) : list string :=
  if asPath then segmentName <$> JsString.split "." path else [path].

(** The alias a names object holds for a raw name. *)
Definition aliasOf (ns : Obj.t string) (name : string) : string :=
  default "" (forInNames ns (Obj.keys ns) name).

(** A path written with the aliases of a given names object. *)
Definition renderPath (asPath : bool) (ns : Obj.t string) (path : string)
  : string :=
  if asPath then
    JsString.join "."
      ((fun seg => aliasOf ns (segmentName seg) +:+ segmentSuffix seg)
         <$> JsString.split "." path)
  else aliasOf ns path.

End ExpressionAttributes.

(** ** The Condition module (Condition.ts), a parameter

    [Table] calls into [Condition], whose source is not part of the
    development; it is taken as a parameter.  The two laws below are what
    the parameter builders rely on. *)

Record ConditionModule : Type := {
  Resolver : Type;
  (** [Condition.addAndParam(conditions, attributes, params)]: may register
      aliases on [attributes] and writes into [params]. *)
  addAndParam :
    option (list Resolver) -> ExpressionAttributes.t -> Obj.t jsval ->
    ExpressionAttributes.t * Obj.t jsval;
  (** [Condition.exists(name)] and [Condition.notExists(name)]. *)
  condExists : string -> Resolver;
  condNotExists : string -> Resolver
}.

(** [addAndParam] writes no property of the request object other than
    [ConditionExpression]. *)
Definition condition_frame (C : ConditionModule) : Prop :=
  forall conds ea params k,
    k <> "ConditionExpression" ->
    Obj.get (addAndParam C conds ea params).2 k = Obj.get params k.

(** With no condition to add, [addAndParam] leaves both arguments alone. *)
Definition condition_idle (C : ConditionModule) : Prop :=
  forall ea params,
    addAndParam C None ea params = (ea, params) /\
    addAndParam C (Some []) ea params = (ea, params).

(** A small instance of the parameter: a resolver is an already rendered
    condition, and the conditions are joined with [AND]. *)
Definition plainConditions : ConditionModule :=
  {| Resolver := string;
     addAndParam := fun conds ea params =>
       match conds with
       | None | Some [] => (ea, params)
       | Some cs =>
           (ea, Obj.set params "ConditionExpression"
                  (VStr (JsString.join " AND " cs)))
       end;
     condExists := fun name => "attribute_exists(" +:+ name +:+ ")";
     condNotExists := fun name => "attribute_not_exists(" +:+ name +:+ ")" |}.

(** ** The update compiler *)

Module Update.

(** Modelled from the spec: the update directives of Update.ts, which is
    not among the sources (design document, sections 3 and 4.2). *)
Inductive Directive : Type :=
| DSet (value : jsval)
| DIncrement (src : option string) (delta : jsval)
| DDecrement (src : option string) (delta : jsval)
| DDelete
| DPathReference (name : string)
| DPrepend (items : jsval)
| DAppend (items : jsval)
| DAddToSet (vals : jsval)
| DRemoveFromSet (vals : jsval)
| DMap (nested : list (string * Directive)).

(** Modelled from the spec: the four clause buffers of the update compiler
    (Update.ts is not among the sources), each filled at its end. *)
Record Buffers : Type := mkBuffers {
  setList : list string;
  removeList : list string;
  addList : list string;
  delList : list string
}.

Definition noBuffers : Buffers := mkBuffers [] [] [] [].

Definition pushSet (b : Buffers) (e : string) : Buffers :=
  mkBuffers (setList b ++ [e]) (removeList b) (addList b) (delList b).
Definition pushRemove (b : Buffers) (e : string) : Buffers :=
  mkBuffers (setList b) (removeList b ++ [e]) (addList b) (delList b).
Definition pushAdd (b : Buffers) (e : string) : Buffers :=
  mkBuffers (setList b) (removeList b) (addList b ++ [e]) (delList b).
Definition pushDel (b : Buffers) (e : string) : Buffers :=
  mkBuffers (setList b) (removeList b) (addList b) (delList b ++ [e]).

Definition State : Type := ExpressionAttributes.t * Buffers.

(** Modelled from the spec: the increment and decrement rows of the clause
    table, [alias(path) = alias(left) <op> valueAlias], where [left] is
    the field read when one is named and the path itself otherwise. *)
Definition arith (op : string) (path : string) (src : option string)
  (delta : jsval) (st : State) : State :=
  let '(ea, b) := st in
  let '(p, ea) := ExpressionAttributes.addPath path ea in
  let '(l, ea) :=
    match src with
    | Some s => ExpressionAttributes.addPath s ea
    | None => (p, ea)
    end in
  let '(v, ea) := ExpressionAttributes.addValue delta ea in
  (ea, pushSet b (p +:+ " = " +:+ l +:+ " " +:+ op +:+ " " +:+ v)).

(** Modelled from the spec: the operation to clause table of section 4.2
    (Update.ts is not among the sources).  A directive at [path] appends
    its fragment to the buffer of its clause; a nested map compiles each
    entry at [path.key], in the order the keys are supplied. *)
Fixpoint compile (path : string) (d : Directive) (st : State) : State :=
  match d with
  | DSet value =>
      let '(ea, b) := st in
      let '(p, ea) := ExpressionAttributes.addPath path ea in
      let '(v, ea) := ExpressionAttributes.addValue value ea in
      (ea, pushSet b (p +:+ " = " +:+ v))
  | DIncrement src delta => arith "+" path src delta st
  | DDecrement src delta => arith "-" path src delta st
  | DDelete =>
      let '(ea, b) := st in
      let '(p, ea) := ExpressionAttributes.addPath path ea in
      (ea, pushRemove b p)
  | DPathReference _ =>
      let '(ea, b) := st in
      let '(p, ea) := ExpressionAttributes.addPath path ea in
      (ea, pushSet b (p +:+ " = " +:+ p))
  | DPrepend items =>
      let '(ea, b) := st in
      let '(p, ea) := ExpressionAttributes.addPath path ea in
      let '(v, ea) := ExpressionAttributes.addValue items ea in
      (ea, pushSet b (p +:+ " = list_append(" +:+ v +:+ ", " +:+ p +:+ ")"))
  | DAppend items =>
      let '(ea, b) := st in
      let '(p, ea) := ExpressionAttributes.addPath path ea in
      let '(v, ea) := ExpressionAttributes.addValue items ea in
      (ea, pushSet b (p +:+ " = list_append(" +:+ p +:+ ", " +:+ v +:+ ")"))
  | DAddToSet vals =>
      let '(ea, b) := st in
      let '(p, ea) := ExpressionAttributes.addPath path ea in
      let '(v, ea) := ExpressionAttributes.addValue vals ea in
      (ea, pushAdd b (p +:+ " " +:+ v))
  | DRemoveFromSet vals =>
      let '(ea, b) := st in
      let '(p, ea) := ExpressionAttributes.addPath path ea in
      let '(v, ea) := ExpressionAttributes.addValue vals ea in
      (ea, pushDel b (p +:+ " " +:+ v))
  | DMap nested =>
      (fix each (l : list (string * Directive)) (st : State) : State :=
         match l with
         | [] => st
         | (key, d') :: l' =>
             each l' (compile (path +:+ "." +:+ key) d' st)
         end) nested st
  end.

(** Modelled from the spec: the update record handed to the compiler, an
    attribute name and its directive per field, in field order. *)
Definition UpdateMapValue : Type := list (string * Directive).

(** Modelled from the spec: the fields of the record are compiled in
    order. *)
Definition compileAll (item : UpdateMapValue) (st : State) : State :=
  fold_left (fun st '(name, d) => compile name d st) item st.

(** Modelled from the spec: one clause of the assembly rule, its keyword
    and the comma-joined entries, nothing for an empty buffer. *)
Definition clause (keyword : string) (entries : list string)
  : list string :=
  match entries with
  | [] => []
  | _ => [keyword +:+ " " +:+ JsString.join ", " entries]
  end.

(** Modelled from the spec: the assembly rule of section 4.2 (Update.ts is
    not among the sources): the non-empty clauses in the order SET, REMOVE,
    ADD, DELETE, separated by a space. *)
Definition buildExpression (b : Buffers) : option string :=
  match clause "SET" (setList b) ++ clause "REMOVE" (removeList b)
        ++ clause "ADD" (addList b) ++ clause "DELETE" (delList b) with
  | [] => None
  | cs => Some (JsString.join " " cs)
  end.

(** Modelled from the spec: [Update.addParam(item, attributes, params)]
    of Update.ts; it compiles the record and attaches the expression when
    there is one. *)
Definition addParam (item : option UpdateMapValue)
  (ea : ExpressionAttributes.t) (params : Obj.t jsval)
  : ExpressionAttributes.t * Obj.t jsval :=
  match item with
  | None => (ea, params)
  | Some item =>
      let '(ea', b) := compileAll item (ea, noBuffers) in
      match buildExpression b with
      | Some e => (ea', Obj.set params "UpdateExpression" (VStr e))
      | None => (ea', params)
      end
  end.

(** The clauses of the expression grammar. *)
Inductive Clause : Type := SET | REMOVE | ADD | DELETE.

Global Instance Clause_eq_dec : EqDecision Clause.
Proof. solve_decision. Defined.

(** The clauses a directive contributes to. *)
Fixpoint clausesOf (d : Directive) : list Clause :=
  match d with
  | DSet _ | DIncrement _ _ | DDecrement _ _ | DPathReference _
  | DPrepend _ | DAppend _ => [SET]
  | DDelete => [REMOVE]
  | DAddToSet _ => [ADD]
  | DRemoveFromSet _ => [DELETE]
  | DMap nested =>
      (fix each (l : list (string * Directive)) : list Clause :=
         match l with
         | [] => []
         | (_, d') :: l' => clausesOf d' ++ each l'
         end) nested
  end.

Definition clausesOfAll (item : UpdateMapValue) : list Clause :=
  flat_map (fun '(_, d) => clausesOf d) item.

Definition buffer (c : Clause) (b : Buffers) : list string :=
  match c with
  | SET => setList b
  | REMOVE => removeList b
  | ADD => addList b
  | DELETE => delList b
  end.

(** How many times clause [c] occurs in a list of clauses. *)
Definition occurrences (c : Clause) (cs : list Clause) : nat :=
  length (filter (fun x => x = c) cs).

End Update.

(** ** Table (Table.ts) *)

Module Table.

Inductive KeyTypes : Type := HASH | RANGE.

Definition KeyTypes_eqb (a b : KeyTypes) : bool :=
  match a, b with
  | HASH, HASH | RANGE, RANGE => true
  | _, _ => false
  end.

(** The fields of a table the parameter builders read. *)
Record t : Type := mk {
  name : string;
  keySchema : Obj.t KeyTypes
}.

(** The loop of [getKeyName] over [Object.keys(keySchema)]. *)
Fixpoint getKeyNameLoop (keySchema : Obj.t KeyTypes) (keys : list string)
  (type : KeyTypes) : string :=
  match keys with
  | [] => ""
  | key :: keys' =>
      match Obj.get keySchema key with
      | Some kt => if KeyTypes_eqb kt type then key
                   else getKeyNameLoop keySchema keys' type
      | None => getKeyNameLoop keySchema keys' type
      end
  end.

Definition getKeyName (keySchema : Obj.t KeyTypes) (type : KeyTypes)
  : string :=
  getKeyNameLoop keySchema (Obj.keys keySchema) type.

Definition getPartitionKey (tbl : t) : string :=
  getKeyName (keySchema tbl) HASH.

Definition getSortKey (tbl : t) : string :=
  getKeyName (keySchema tbl) RANGE.

Inductive PutWriteOptions : Type := Always | Exists | NotExists.

(** [Table.BaseOptions], with the [writeOptions] of [Table.PutOptions];
    [None] is a property left out. *)
Record Options (C : ConditionModule) : Type := mkOptions {
  attributes : option ExpressionAttributes.t;
  conditions : option (list (Resolver C));
  params : option (Obj.t jsval);
  writeOptions : option PutWriteOptions
}.

Arguments mkOptions {C}.
Arguments attributes {C}.
Arguments conditions {C}.
Arguments params {C}.
Arguments writeOptions {C}.

(** The default argument [options = {}]. *)
Definition noOptions {C : ConditionModule} : Options C :=
  mkOptions None None None None.

(** [{ ...options.params, TableName: this.name, Key: key }]. *)
Definition keyedParams {C : ConditionModule} (tbl : t) (key : Obj.t jsval)
  (options : Options C) : Obj.t jsval :=
  Obj.set
    (Obj.set (Obj.spread [] (default [] (params options)))
       "TableName" (VStr (name tbl)))
    "Key" (VObj key).

Definition getParams {C : ConditionModule} (tbl : t) (key : Obj.t jsval)
  (options : Options C) : Obj.t jsval :=
  keyedParams tbl key options.

Definition deleteParams {C : ConditionModule} (tbl : t) (key : Obj.t jsval)
  (options : Options C) : Obj.t jsval :=
  let params := keyedParams tbl key options in
  let attributes := default ExpressionAttributes.new (attributes options) in
  let '(attributes, params) :=
    addAndParam C (conditions options) attributes params in
  ExpressionAttributes.addParams attributes params.

Definition getPutCondition {C : ConditionModule} (tbl : t)
  (options : PutWriteOptions) : option (Resolver C) :=
  match options with
  | Exists => Some (condExists C (getPartitionKey tbl))
  | NotExists => Some (condNotExists C (getPartitionKey tbl))
  | Always => None
  end.

Definition putParams {C : ConditionModule} (tbl : t) (key : Obj.t jsval)
  (item : option (Obj.t jsval)) (options : Options C) : Obj.t jsval :=
  let params :=
    Obj.set
      (Obj.set (Obj.spread [] (default [] (params options)))
         "TableName" (VStr (name tbl)))
      "Item" (VObj (Obj.spread (Obj.spread [] key) (default [] item))) in
  let conditions := default [] (conditions options) in
  let condition :=
    getPutCondition tbl (default Always (writeOptions options)) in
  let conditions :=
    match condition with
    | Some c => conditions ++ [c]
    | None => conditions
    end in
  let attributes := default ExpressionAttributes.new (attributes options) in
  let '(attributes, params) :=
    addAndParam C (Some conditions) attributes params in
  ExpressionAttributes.addParams attributes params.

Definition updateParams {C : ConditionModule} (tbl : t) (key : Obj.t jsval)
  (item : option Update.UpdateMapValue) (options : Options C)
  : Obj.t jsval :=
  let params := keyedParams tbl key options in
  let attributes := default ExpressionAttributes.new (attributes options) in
  let '(attributes, params) := Update.addParam item attributes params in
  let '(attributes, params) :=
    addAndParam C (conditions options) attributes params in
  ExpressionAttributes.addParams attributes params.

End Table.

(** ** Model (Model.ts) *)

Module Model.

(** One round of the [forEach] of [splitTableData], on the own properties
    of [key], the prototype of [key] and the own properties of [item].
    [data] is the object [toTable] made by [{}]. *)
Definition splitStep (data : Obj.t jsval)
  (acc : option (Obj.t jsval * jsval * Obj.t jsval)) (name : string)
  : option (Obj.t jsval * jsval * Obj.t jsval) :=
  '(key, proto, item) ← acc;
  let value := Ordinary.get data name in
  if is_undefined value then Some (key, proto, item)
  else
    '(key', proto') ← Ordinary.assign key proto name value;
    Some (key', proto', Obj.delete item name).

(** Returns the pair [{ key, item }], each by its own properties; [None]
    when an assignment throws. *)
Definition splitTableData (table : Table.t) (data : Obj.t jsval)
  : option (Obj.t jsval * Obj.t jsval) :=
  '(key, _, item) ←
    fold_left (splitStep data) (Obj.keys (Table.keySchema table))
      (Some ([], VBuiltin ObjectPrototype, Obj.spread [] data));
  Some (key, item).

(** [putParams], from the flat attribute map the fields have produced. *)
Definition putParamsOf {C : ConditionModule} (table : Table.t)
  (tableData : Obj.t jsval) (options : Table.Options C)
  : option (Obj.t jsval) :=
  '(key, item) ← splitTableData table tableData;
  Some (Table.putParams table key (Some item) options).

End Model.

(** ** The split-key field *)

Module SplitField.

Definition stringOf (v : option jsval) : option string :=
  match v with
  | Some (VStr s) => Some s
  | _ => None
  end.

(** Modelled from the spec: [project] of the split-key field for two table
    attributes (Fields.ts is not among the sources; design document,
    section 4.3).  One token writes the first attribute only; otherwise all
    tokens but the last, joined again, go to the first attribute and the
    last token to the second. *)
Definition project (attr1 attr2 : string) (sep : ascii) (value : string)
  (tableData : Obj.t jsval) : Obj.t jsval :=
  match JsString.split sep value with
  | [token] => Obj.set tableData attr1 (VStr token)
  | tokens =>
      Obj.set
        (Obj.set tableData attr1
           (VStr (JsString.join (String sep "") (removelast tokens))))
        attr2 (VStr (List.last tokens ""))
  end.

(** Modelled from the spec: [extract] of the split-key field (Fields.ts is
    not among the sources).  The attributes that are present are read in
    order and joined with the separator; none present gives no value. *)
Definition extract (attrs : list string) (sep : ascii)
  (tableData : Obj.t jsval) : option string :=
  match omap (fun a => stringOf (Obj.get tableData a)) attrs with
  | [] => None
  | parts => Some (JsString.join (String sep "") parts)
  end.

End SplitField.

(** ** Path aliasing as the design document words it *)

Module PathSpec.

(** The prefix of [s] before the first [c], and the rest of [s] from that
    [c] on (all of [s] and nothing when [c] does not occur). *)
Fixpoint breakAt (c : ascii) (s : string) : string * string :=
  match s with
  | "" => ("", "")
  | String a s' =>
      if Ascii.eqb a c then ("", s)
      else let '(p, r) := breakAt c s' in (String a p, r)
  end.

(** A segment ending with a closing bracket has the prefix before its
    first opening bracket aliased and the bracket suffix appended again;
    any other segment is aliased whole. *)
Definition aliasSegment (seg : string) (ea : ExpressionAttributes.t)
  : string * ExpressionAttributes.t :=
  if JsString.endsWith seg "]" then
    let '(prefix, bracket) := breakAt "[" seg in
    let '(a, ea') := ExpressionAttributes.addName prefix ea in
    (a +:+ bracket, ea')
  else ExpressionAttributes.addName seg ea.

(** The segments are aliased one after the other on the same instance. *)
Fixpoint aliasSegments (segs : list string) (ea : ExpressionAttributes.t)
  : list string * ExpressionAttributes.t :=
  match segs with
  | [] => ([], ea)
  | seg :: segs' =>
      let '(a, ea1) := aliasSegment seg ea in
      let '(outs, ea2) := aliasSegments segs' ea1 in
      (a :: outs, ea2)
  end.

(** [addPath] over the dot-separated segments of a path. *)
Definition addPath (segs : list string) (ea : ExpressionAttributes.t)
  : string * ExpressionAttributes.t :=
  let '(outs, ea') := aliasSegments segs ea in
  (JsString.join "." outs, ea').

(** A segment that ends with a closing bracket has an opening one. *)
Definition bracketed (seg : string) : bool :=
  negb (JsString.endsWith seg "]") || JsString.contains "[" seg.

End PathSpec.

(** ** Invariants of an ExpressionAttributes instance *)

Module Invariant.
Import ExpressionAttributes.

(** The alias texts the two counters produce. *)
Definition nameAlias (i : nat) : string := "#n" +:+ pretty i.
Definition valueAlias (i : nat) : string := ":v" +:+ pretty i.

(** The default predicates: no name is reserved, no name is valid. *)
Definition defaultPredicates (ea : t) : Prop :=
  (forall n, isReservedName ea n = false) /\
  (forall n, isValidName ea n = false).

(** The aliases of the names object are the numbered ones handed out so
    far, in order, and no raw name is held twice. *)
Definition namesInv (ea : t) : Prop :=
  Obj.keys (names ea) = nameAlias <$> seq 0 (nextName ea) /\
  NoDup (names ea).*2.

(** The aliases of the values object are the numbered ones handed out so
    far, in order. *)
Definition valuesInv (ea : t) : Prop :=
  Obj.keys (values ea) = valueAlias <$> seq 0 (nextValue ea).

End Invariant.

(** ** Reading a names object *)

Module Names.
Import ExpressionAttributes.

(** The first alias, in creation order, that stands for a raw name. *)
Fixpoint firstAlias (ns : Obj.t string) (name : string) : option string :=
  match ns with
  | [] => None
  | (k, v) :: ns' =>
      if String.eqb v name then Some k else firstAlias ns' name
  end.

(** The raw names a call asks aliases for. *)
Definition requestNames (asPath : bool) (r : Request) : list string :=
  match r with
  | ReqPath p => pathNames asPath p
  | ReqValue _ => []
  end.

(** The raw names a sequence of calls asks aliases for. *)
Definition requestedNames (asPath : bool) (rs : list Request)
  : list string :=
  flat_map (requestNames asPath) rs.

(** What a call returns when every alias is read off a names object. *)
Definition renderRequest (asPath : bool) (ns : Obj.t string) (r : Request)
  : option string :=
  match r with
  | ReqPath p => Some (renderPath asPath ns p)
  | ReqValue _ => None
  end.

End Names.

(** ** How an instance evolves under alias requests *)

Module Evolution.
Import ExpressionAttributes Invariant.

(** [ea'] comes from [ea] by asking aliases for the names [asked]: the
    invariant and the settings are kept, the names object is extended at
    its end, and the raw names it holds are the former ones and [asked]. *)
Definition grows (asked : list string) (ea ea' : t) : Prop :=
  namesInv ea' /\
  defaultPredicates ea' /\
  treatNameAsPath ea' = treatNameAsPath ea /\
  (exists ext, names ea' = names ea ++ ext) /\
  (forall m, m ∈ (names ea').*2 <-> m ∈ (names ea).*2 \/ m ∈ asked).

End Evolution.

(** ** Sample inputs *)

Module Samples.

(** An instance whose reserved-name predicate knows one word, [size], and
    whose valid-name predicate accepts [size] and [id]. *)
Definition reservedSize : ExpressionAttributes.t :=
  {| ExpressionAttributes.isReservedName := fun n => String.eqb n "size";
     ExpressionAttributes.isValidName :=
       fun n => String.eqb n "size" || String.eqb n "id";
     ExpressionAttributes.treatNameAsPath := true;
     ExpressionAttributes.names := [];
     ExpressionAttributes.nextName := 0;
     ExpressionAttributes.values := [];
     ExpressionAttributes.nextValue := 0 |}.

(** The table of the test suite: partition key [P], sort key [S]. *)
Definition mainTable : Table.t :=
  Table.mk "MainTable" [("P", Table.HASH); ("S", Table.RANGE)].

End Samples.

(** ** Reading an attribute map *)

Module Attributes.

(** [data] has an own property [name] whose value is defined. *)
Definition definedIn (data : Obj.t jsval) (name : string) : bool :=
  match Obj.get data name with
  | Some v => negb (is_undefined v)
  | None => false
  end.

(** A name that [data] answers from its own properties or not at all: it
    is not [__proto__], and when [data] does not own it [Object.prototype]
    has no member of that name. *)
Definition ownOrAbsent (data : Obj.t jsval) (name : string) : bool :=
  negb (String.eqb name "__proto__") &&
  match Obj.get data name with
  | Some _ => true
  | None => is_undefined (Ordinary.inherited name)
  end.

(** The round of the [forEach] when the name is answered by the own
    properties of [data]. *)
Definition ownStep (data : Obj.t jsval)
  (acc : Obj.t jsval * Obj.t jsval) (name : string)
  : Obj.t jsval * Obj.t jsval :=
  let '(key, item) := acc in
  match Obj.get data name with
  | None | Some VUndefined => (key, item)
  | Some v => (Obj.set key name v, Obj.delete item name)
  end.

(** The split when every name of the key schema is answered by the own
    properties of [data]. *)
Definition ownSplit (table : Table.t) (data : Obj.t jsval)
  : Obj.t jsval * Obj.t jsval :=
  fold_left (ownStep data) (Obj.keys (Table.keySchema table))
    ([], Obj.spread [] data).

(** An entry of an attribute map that belongs to the key: its name is one
    of the key schema and its value is defined. *)
Definition isKeyEntry (table : Table.t) (entry : string * jsval) : Prop :=
  entry.1 ∈ Obj.keys (Table.keySchema table) /\ is_undefined entry.2 = false.

Global Instance isKeyEntry_dec table entry : Decision (isKeyEntry table entry).
Proof. unfold isKeyEntry. apply _. Defined.

End Attributes.

(** ** Proof automation *)

(** Names the results of the calls a compiled directive makes. *)
Ltac crunch_compile :=
  repeat match goal with
         | |- context [let '(_, _) := ?x in _] => destruct x
         end.

(** ** ExpressionAttributes: the attribute-name test *)

Module AttributeName.

Definition isLetter (a : ascii) : bool :=
  (Ascii.leb "A" a && Ascii.leb a "Z") || (Ascii.leb "a" a && Ascii.leb a "z").

Definition isDigit (a : ascii) : bool :=
  Ascii.leb "0" a && Ascii.leb a "9".

Definition isLetterOrDigit (a : ascii) : bool := isLetter a || isDigit a.

Fixpoint allLetterOrDigit (s : string) : bool :=
  match s with
  | "" => true
  | String a s' => isLetterOrDigit a && allLetterOrDigit s'
  end.

(** [ExpressionAttributes.isValidAttributeName(name)]: the test of
    [validAttributeNameRegEx], one letter followed by letters and digits up
    to the end of the string. *)
Definition isValidAttributeName (name : string) : bool :=
  match name with
  | "" => false
  | String a s => isLetter a && allLetterOrDigit s
  end.

End AttributeName.

(** ** Reading the sequence of calls *)

Module Requested.
Import ExpressionAttributes.

(** A name joins the names seen so far unless it is among them. *)
Definition addDistinct (seen : list string) (name : string) : list string :=
  if decide (name ∈ seen) then seen else seen ++ [name].

(** The names of a list, each at the place of its first occurrence. *)
Definition firstOccurrences (names : list string) : list string :=
  fold_left addDistinct names [].

(** The values a sequence of calls hands to [addValue], in order. *)
Definition suppliedValues (rs : list Request) : list jsval :=
  omap (fun r => match r with
                 | ReqValue v => Some v
                 | ReqPath _ => None
                 end) rs.

(** No alias of a reserved name can be taken for a numbered alias: no
    reserved name is [n] followed by a number. *)
Definition reservedApart (ea : t) : Prop :=
  forall r (i : nat), isReservedName ea r = true -> r <> "n" +:+ pretty i.

(** Every alias of the names object is a numbered one already handed out
    or the alias of the reserved name it stands for. *)
Definition aliasesSound (ea : t) : Prop :=
  forall k v,
    Obj.get (names ea) k = Some v ->
    (exists i, i < nextName ea /\ k = "#n" +:+ pretty i) \/
    (k = "#" +:+ v /\ isReservedName ea v = true).

(** From [ea] to [ea']: the settings are kept and no alias is lost or made
    to stand for another name. *)
Definition keepsAliases (ea ea' : t) : Prop :=
  isReservedName ea' = isReservedName ea /\
  isValidName ea' = isValidName ea /\
  treatNameAsPath ea' = treatNameAsPath ea /\
  (forall k v, Obj.get (names ea) k = Some v ->
               Obj.get (names ea') k = Some v).

End Requested.

(** ** The KeyCondition module and the filter part of Condition, a parameter

    [Table.queryParams] and [Table.scanParams] call
    [KeyCondition.addParam] and [Condition.addAndFilterParam], whose
    sources are not part of the development. *)

Record QueryModule (C : ConditionModule) : Type := {
  (** The key argument of a query, [Table.PrimaryKey.KeyQueryMap]. *)
  KeyQueryMap : Type;
  (** [KeyCondition.addParam(key, attributes, params)]. *)
  keyConditionAddParam :
    KeyQueryMap -> ExpressionAttributes.t -> Obj.t jsval ->
    ExpressionAttributes.t * Obj.t jsval;
  (** [Condition.addAndFilterParam(conditions, attributes, params)]. *)
  addAndFilterParam :
    option (list (Resolver C)) -> ExpressionAttributes.t -> Obj.t jsval ->
    ExpressionAttributes.t * Obj.t jsval
}.

Arguments KeyQueryMap {C}.
Arguments keyConditionAddParam {C}.
Arguments addAndFilterParam {C}.

(** Each of the two writes no property of the request object other than
    its own expression. *)
Definition query_frame {C : ConditionModule} (Q : QueryModule C) : Prop :=
  (forall key ea params k,
      k <> "KeyConditionExpression" ->
      Obj.get (keyConditionAddParam Q key ea params).2 k = Obj.get params k)
  /\
  (forall conds ea params k,
      k <> "FilterExpression" ->
      Obj.get (addAndFilterParam Q conds ea params).2 k = Obj.get params k).

(** A small instance of the parameter: the key is an already rendered key
    condition, the filters are joined with [AND]. *)
Definition plainQueries : QueryModule plainConditions :=
  {| KeyQueryMap := string;
     keyConditionAddParam := fun key ea params =>
       (ea, Obj.set params "KeyConditionExpression" (VStr key));
     addAndFilterParam :=
       fun (conds : option (list (Resolver plainConditions))) ea params =>
         match conds with
         | None | Some [] => (ea, params)
         | Some cs =>
             (ea, Obj.set params "FilterExpression"
                    (VStr (JsString.join " AND " (cs : list string))))
         end |}.

(** ** Table (Table.ts): queries and scans *)

Module TableQuery.

Definition queryParams {C : ConditionModule} (Q : QueryModule C)
  (tbl : Table.t) (key : KeyQueryMap Q) (options : Table.Options C)
  : Obj.t jsval :=
  let params :=
    Obj.set (Obj.spread [] (default [] (Table.params options)))
      "TableName" (VStr (Table.name tbl)) in
  let attributes :=
    default ExpressionAttributes.new (Table.attributes options) in
  let '(attributes, params) :=
    keyConditionAddParam Q key attributes params in
  let '(attributes, params) :=
    addAndFilterParam Q (Table.conditions options) attributes params in
  ExpressionAttributes.addParams attributes params.

Definition scanParams {C : ConditionModule} (Q : QueryModule C)
  (tbl : Table.t) (options : Table.Options C) : Obj.t jsval :=
  let params :=
    Obj.set (Obj.spread [] (default [] (Table.params options)))
      "TableName" (VStr (Table.name tbl)) in
  let attributes :=
    default ExpressionAttributes.new (Table.attributes options) in
  let '(attributes, params) :=
    addAndFilterParam Q (Table.conditions options) attributes params in
  ExpressionAttributes.addParams attributes params.

(** [Table.getPutAction(options)], [None] being a missing argument. *)
Inductive PutAction : Type := ActPut | ActPutNew | ActPutReplace.

Definition getPutAction (options : option Table.PutWriteOptions)
  : PutAction :=
  match options with
  | Some Table.NotExists => ActPutNew
  | Some Table.Exists => ActPutReplace
  | _ => ActPut
  end.

End TableQuery.

(** ** Index (Table.ts) *)

Module Index.

(** The fields of an index the parameter builders read; [table] is unset
    until [init]. *)
Record t : Type := mk {
  name : string;
  keySchema : Obj.t Table.KeyTypes;
  table : option Table.t
}.

Definition init (idx : t) (tbl : Table.t) : t :=
  {| name := name idx; keySchema := keySchema idx; table := Some tbl |}.

Definition getPartitionKey (idx : t) : string :=
  Table.getKeyName (keySchema idx) Table.HASH.

Definition getSortKey (idx : t) : string :=
  Table.getKeyName (keySchema idx) Table.RANGE.

(** [{ ...options, params: { IndexName: this.name, ...options.params } }]. *)
Definition getQueryOptions {C : ConditionModule} (idx : t)
  (options : Table.Options C) : Table.Options C :=
  Table.mkOptions (Table.attributes options) (Table.conditions options)
    (Some (Obj.spread (Obj.set [] "IndexName" (VStr (name idx)))
             (default [] (Table.params options))))
    (Table.writeOptions options).

Definition getScanOptions {C : ConditionModule} (idx : t)
  (options : Table.Options C) : Table.Options C :=
  Table.mkOptions (Table.attributes options) (Table.conditions options)
    (Some (Obj.spread (Obj.set [] "IndexName" (VStr (name idx)))
             (default [] (Table.params options))))
    (Table.writeOptions options).

(** [this.table!.queryParams(...)]: the call fails on an index that has no
    table, which [None] stands for. *)
Definition queryParams {C : ConditionModule} (Q : QueryModule C) (idx : t)
  (key : KeyQueryMap Q) (options : Table.Options C)
  : option (Obj.t jsval) :=
  match table idx with
  | Some tbl =>
      Some (TableQuery.queryParams Q tbl key (getQueryOptions idx options))
  | None => None
  end.

Definition scanParams {C : ConditionModule} (Q : QueryModule C) (idx : t)
  (options : Table.Options C) : option (Obj.t jsval) :=
  match table idx with
  | Some tbl => Some (TableQuery.scanParams Q tbl (getScanOptions idx options))
  | None => None
  end.

End Index.

(** ** Model (Model.ts): the methods that drive the fields

    The fields of a schema come from Fields.ts, whose source is not part of
    the development; a field is taken as a parameter.  Its methods fill the
    object they are handed and may fail, which rejects the promise of the
    caller: [None].  The model handed to a field is the same through a
    call, so a field is taken with it already supplied.  A field is taken
    to leave the prototype of the object it fills as [{}] made it. *)

Module ModelMethods.

Record Field : Type := mkField {
  (** [field.toTable(name, data, tableData, model)]. *)
  fieldToTable :
    string -> Obj.t jsval -> Obj.t jsval -> option (Obj.t jsval);
  (** [field.toModel(name, data, out, model)]. *)
  fieldToModel :
    string -> Obj.t jsval -> Obj.t jsval -> option (Obj.t jsval)
}.

Record t : Type := mk {
  name : option string;
  schema : Obj.t Field;
  table : Table.t
}.

(** The loop [for (const name of keys) await schema.<method>(...)]. *)
Fixpoint eachField
  (method : Field -> string -> Obj.t jsval -> Obj.t jsval
            -> option (Obj.t jsval))
  (schema : Obj.t Field) (keys : list string) (data acc : Obj.t jsval)
  : option (Obj.t jsval) :=
  match keys with
  | [] => Some acc
  | name :: keys' =>
      match Obj.get schema name with
      | Some field =>
          match method field name data acc with
          | Some acc' => eachField method schema keys' data acc'
          | None => None
          end
      | None => None
      end
  end.

(** The attribute map [toTable] hands to [splitTableData]. *)
Definition tableDataOf (m : t) (data : Obj.t jsval)
  : option (Obj.t jsval) :=
  eachField fieldToTable (schema m) (Obj.keys (schema m)) data [].

Definition toTable (m : t) (data : Obj.t jsval)
  : option (Obj.t jsval * Obj.t jsval) :=
  tableData ← tableDataOf m data;
  Model.splitTableData (table m) tableData.

Definition toTableKey (m : t) (key : Obj.t jsval) : option (Obj.t jsval) :=
  fst <$> toTable m key.

Definition toModel (m : t) (data : Obj.t jsval) : option (Obj.t jsval) :=
  eachField fieldToModel (schema m) (Obj.keys (schema m)) data [].

Definition getParams {C : ConditionModule} (m : t) (key : Obj.t jsval)
  (options : Table.Options C) : option (Obj.t jsval) :=
  tableKey ← toTableKey m key;
  Some (Table.getParams (table m) tableKey options).

Definition putParams {C : ConditionModule} (m : t) (data : Obj.t jsval)
  (options : Table.Options C) : option (Obj.t jsval) :=
  tableData ← toTable m data;
  Some (Table.putParams (table m) tableData.1 (Some tableData.2) options).

Definition deleteParams {C : ConditionModule} (m : t) (key : Obj.t jsval)
  (options : Table.Options C) : option (Obj.t jsval) :=
  tableKey ← toTableKey m key;
  Some (Table.deleteParams (table m) tableKey options).

(** The store client: each call takes the request object and answers with
    the output object, or fails. *)
Record Client : Type := mkClient {
  clientGet : Obj.t jsval -> option (Obj.t jsval);
  clientPut : Obj.t jsval -> option (Obj.t jsval);
  clientDelete : Obj.t jsval -> option (Obj.t jsval)
}.

(** [result.<prop> ? this.toModel(result.<prop>) : undefined], the inner
    [None] being [undefined]. *)
Definition toModelIf (m : t) (result : Obj.t jsval) (prop : string)
  : option (option (Obj.t jsval)) :=
  match Obj.get result prop with
  | Some (VObj attributes) => Some <$> toModel m attributes
  | _ => Some None
  end.

Definition get {C : ConditionModule} (m : t) (client : Client)
  (key : Obj.t jsval) (options : Table.Options C)
  : option (option (Obj.t jsval)) :=
  tableKey ← toTableKey m key;
  result ← clientGet client (Table.getParams (table m) tableKey options);
  toModelIf m result "Item".

Definition put {C : ConditionModule} (m : t) (client : Client)
  (data : Obj.t jsval) (options : Table.Options C)
  : option (Obj.t jsval) :=
  tableData ← toTable m data;
  _ ← clientPut client
        (Table.putParams (table m) tableData.1 (Some tableData.2) options);
  toModel m (Obj.spread (Obj.spread [] tableData.1) tableData.2).

Definition delete {C : ConditionModule} (m : t) (client : Client)
  (key : Obj.t jsval) (options : Table.Options C)
  : option (option (Obj.t jsval)) :=
  tableKey ← toTableKey m key;
  result ← clientDelete client
             (Table.deleteParams (table m) tableKey options);
  toModelIf m result "Attributes".

End ModelMethods.

(** ** Reading the key of a split *)

Module KeyOrder.

(** The entry of the key map a name of the key schema gives: the name with
    its value in the data, when that value is defined. *)
Definition keyEntry (data : Obj.t jsval) (name : string)
  : option (string * jsval) :=
  match Obj.get data name with
  | Some v => if is_undefined v then None else Some (name, v)
  | None => None
  end.

End KeyOrder.

(** ** More sample inputs *)

Module MoreSamples.

(** An instance that takes [isValidAttributeName] for its valid-name
    predicate and reserves the word [size]. *)
Definition identifierAware : ExpressionAttributes.t :=
  {| ExpressionAttributes.isReservedName := fun n => String.eqb n "size";
     ExpressionAttributes.isValidName := AttributeName.isValidAttributeName;
     ExpressionAttributes.treatNameAsPath := true;
     ExpressionAttributes.names := [];
     ExpressionAttributes.nextName := 0;
     ExpressionAttributes.values := [];
     ExpressionAttributes.nextValue := 0 |}.

(** The global secondary index of the test suite, not yet in a table. *)
Definition gsi0 : Index.t :=
  Index.mk "GSI0" [("G0P", Table.HASH); ("G0S", Table.RANGE)] None.

(** A field that copies its attribute from one object to the other when
    the attribute is there. *)
Definition copyField : ModelMethods.Field :=
  let copy := fun (name : string) (data acc : Obj.t jsval) =>
    match Obj.get data name with
    | Some v => Some (Obj.set acc name v)
    | None => Some acc
    end in
  ModelMethods.mkField copy copy.

(** A model over the table of the test suite with three copied fields. *)
Definition plainModel : ModelMethods.t :=
  ModelMethods.mk None
    [("name", copyField); ("S", copyField); ("P", copyField)]
    Samples.mainTable.

(** A store that accepts every write and answers with nothing. *)
Definition silentStore : ModelMethods.Client :=
  ModelMethods.mkClient (fun _ => Some []) (fun _ => Some [])
    (fun _ => Some []).

End MoreSamples.

(** ** Path aliasing, case by case

    What [addPath] makes of a segment, to compare the code with: a
    segment that ends with a closing bracket and holds no opening one has
    the empty name aliased and follows that alias whole; any other segment
    is treated as the design document words it. *)

Module PathCases.

Definition aliasSegment (seg : string) (ea : ExpressionAttributes.t)
  : string * ExpressionAttributes.t :=
  if PathSpec.bracketed seg then PathSpec.aliasSegment seg ea
  else
    let '(a, ea') := ExpressionAttributes.addName "" ea in
    (a +:+ seg, ea').

(** The segments are aliased one after the other on the same instance. *)
Fixpoint aliasSegments (segs : list string) (ea : ExpressionAttributes.t)
  : list string * ExpressionAttributes.t :=
  match segs with
  | [] => ([], ea)
  | seg :: segs' =>
      let '(a, ea1) := aliasSegment seg ea in
      let '(outs, ea2) := aliasSegments segs' ea1 in
      (a :: outs, ea2)
  end.

Definition addPath (segs : list string) (ea : ExpressionAttributes.t)
  : string * ExpressionAttributes.t :=
  let '(outs, ea') := aliasSegments segs ea in
  (JsString.join "." outs, ea').

End PathCases.

(** * Properties *)

(** ** Objects and their finite-map view *)

Section ObjFacts.
Context {V : Type}.
Implicit Types (o : Obj.t V) (k : string) (v : V).

Lemma eqb_refl_true k : String.eqb k k = true.
Proof. by apply String.eqb_eq. Qed.

Lemma eqb_ne_false k k' : k <> k' -> String.eqb k k' = false.
Proof. by intros ?; apply String.eqb_neq. Qed.

Lemma obj_get_to_map o k : Obj.get o k = Obj.to_map o !! k.
Proof.
  unfold Obj.to_map. induction o as [|[k' v'] o IH]; simpl; [done|].
  destruct (String.eqb_spec k' k) as [->|Hne].
  - by rewrite lookup_insert_eq.
  - by rewrite lookup_insert_ne.
Qed.

Lemma obj_to_map_set o k v :
  Obj.to_map (Obj.set o k v) = <[k:=v]> (Obj.to_map o).
Proof.
  unfold Obj.to_map. induction o as [|[k' v'] o IH]; simpl; [done|].
  destruct (String.eqb_spec k' k) as [->|Hne]; simpl.
  - by rewrite insert_insert_eq.
  - rewrite IH. by apply insert_insert_ne.
Qed.

Lemma obj_to_map_delete o k :
  Obj.to_map (Obj.delete o k) = delete k (Obj.to_map o).
Proof.
  unfold Obj.to_map. induction o as [|[k' v'] o IH]; simpl.
  - by rewrite delete_empty.
  - destruct (String.eqb_spec k' k) as [->|Hne]; simpl.
    + by rewrite IH, delete_insert_eq.
    + by rewrite IH, delete_insert_ne.
Qed.

Lemma obj_get_set_eq o k v : Obj.get (Obj.set o k v) k = Some v.
Proof. by rewrite obj_get_to_map, obj_to_map_set, lookup_insert_eq. Qed.

Lemma obj_get_set_ne o k k' v :
  k <> k' -> Obj.get (Obj.set o k v) k' = Obj.get o k'.
Proof.
  intros. by rewrite !obj_get_to_map, obj_to_map_set, lookup_insert_ne.
Qed.

Lemma obj_get_None_keys o k : Obj.get o k = None <-> k ∉ Obj.keys o.
Proof.
  rewrite obj_get_to_map. unfold Obj.to_map, Obj.keys.
  by rewrite <-not_elem_of_list_to_map.
Qed.

Lemma obj_get_Some_keys o k v : Obj.get o k = Some v -> k ∈ Obj.keys o.
Proof.
  intros H. destruct (decide (k ∈ Obj.keys o)) as [|Hn]; [done|].
  apply obj_get_None_keys in Hn. congruence.
Qed.

Lemma obj_set_fresh o k v : k ∉ Obj.keys o -> Obj.set o k v = o ++ [(k, v)].
Proof.
  unfold Obj.keys. induction o as [|[k' v'] o IH]; simpl; [done|].
  intros Hn. apply not_elem_of_cons in Hn as [Hne Hn].
  rewrite eqb_ne_false by done. by rewrite IH.
Qed.

Lemma obj_get_app_l o o' k v :
  Obj.get o k = Some v -> Obj.get (o ++ o') k = Some v.
Proof.
  induction o as [|[k' v'] o IH]; simpl; [done|].
  by destruct (String.eqb k' k).
Qed.

Lemma obj_get_spread (target src : Obj.t V) k :
  Obj.get (Obj.spread target src) k =
  match Obj.get src k with
  | Some v => Some v
  | None => Obj.get target k
  end.
Proof.
  unfold Obj.spread.
  assert (Hgen : forall ks target,
    Obj.get (fold_left (fun acc k =>
        match Obj.get src k with
        | Some v => Obj.set acc k v
        | None => acc
        end) ks target) k
    = if decide (k ∈ ks)
      then match Obj.get src k with
           | Some v => Some v
           | None => Obj.get target k
           end
      else Obj.get target k).
  { clear target. induction ks as [|k0 ks IH]; intros target; cbn [fold_left].
    - by rewrite decide_False by apply not_elem_of_nil.
    - rewrite IH. destruct (decide (k = k0)) as [->|Hne].
      + rewrite (decide_True (P := k0 ∈ k0 :: ks)) by (by left).
        destruct (Obj.get src k0) as [v|] eqn:Hk.
        * rewrite obj_get_set_eq. by destruct (decide (k0 ∈ ks)).
        * by destruct (decide (k0 ∈ ks)).
      + assert (Hstep : Obj.get
                  match Obj.get src k0 with
                  | Some v => Obj.set target k0 v
                  | None => target
                  end k = Obj.get target k).
        { destruct (Obj.get src k0); [|done]. by rewrite obj_get_set_ne. }
        rewrite Hstep. destruct (decide (k ∈ ks)).
        * rewrite decide_True; [done|by right].
        * rewrite decide_False; [done|]. by intros [?|?]%elem_of_cons. }
  rewrite Hgen. destruct (decide (k ∈ Obj.keys src)) as [|Hn]; [done|].
  apply obj_get_None_keys in Hn. by rewrite Hn.
Qed.

Lemma obj_to_map_spread (target src : Obj.t V) :
  Obj.to_map (Obj.spread target src) = Obj.to_map src ∪ Obj.to_map target.
Proof.
  apply map_eq. intros k.
  rewrite lookup_union, <-!obj_get_to_map, obj_get_spread.
  destruct (Obj.get src k), (Obj.get target k); done.
Qed.

End ObjFacts.

(** ** Strings *)

Section StringFacts.
Implicit Types (s t : string) (c a : ascii).

Lemma str_app_cons a s t : String a s +:+ t = String a (s +:+ t).
Proof. done. Qed.

Lemma str_app_nil_l s : "" +:+ s = s.
Proof. done. Qed.

Lemma str_app_nil_r s : s +:+ "" = s.
Proof. induction s as [|a s IH]; [done|]. by rewrite str_app_cons, IH. Qed.

Lemma str_app_assoc s t u : (s +:+ t) +:+ u = s +:+ t +:+ u.
Proof. induction s as [|a s IH]; [done|]. by rewrite !str_app_cons, IH. Qed.

Lemma str_length_app s t :
  String.length (s +:+ t) = String.length s + String.length t.
Proof.
  induction s as [|a s IH]; [done|]. rewrite str_app_cons. simpl.
  by rewrite IH.
Qed.

Lemma split_ne_nil c s : JsString.split c s <> [].
Proof.
  destruct s as [|a s]; simpl; [done|].
  destruct (Ascii.eqb a c); [done|]. by destruct (JsString.split c s).
Qed.

Lemma join_cons_cons sep x y l :
  JsString.join sep (x :: y :: l) = x +:+ sep +:+ JsString.join sep (y :: l).
Proof. done. Qed.

Lemma join_head_char sep a x l :
  JsString.join sep (String a x :: l) = String a (JsString.join sep (x :: l)).
Proof. by destruct l. Qed.

(** Joining what [split] returns gives the string back. *)
Lemma join_split c s : JsString.join (String c "") (JsString.split c s) = s.
Proof.
  induction s as [|a s IH]; [done|]. simpl.
  destruct (Ascii.eqb_spec a c) as [->|Hne].
  - pose proof (split_ne_nil c s) as Hnil.
    destruct (JsString.split c s) as [|x l] eqn:E; [done|].
    rewrite join_cons_cons, IH. done.
  - pose proof (split_ne_nil c s) as Hnil.
    destruct (JsString.split c s) as [|x l] eqn:E; [done|].
    by rewrite join_head_char, IH.
Qed.

Lemma split_no_sep c s :
  JsString.contains c s = false -> JsString.split c s = [s].
Proof.
  induction s as [|a s IH]; [done|]. simpl.
  intros [Ha Hs]%orb_false_elim. by rewrite Ha, IH.
Qed.

Lemma split_app_sep c s t :
  JsString.contains c s = false ->
  JsString.split c (s +:+ String c t) = s :: JsString.split c t.
Proof.
  induction s as [|a s IH].
  - intros _. rewrite str_app_nil_l. simpl. by rewrite Ascii.eqb_refl.
  - intros [Ha Hs]%orb_false_elim. rewrite str_app_cons. simpl.
    by rewrite Ha, IH.
Qed.

(** Splitting a joined list of separator-free segments gives the list. *)
Lemma split_join c segs :
  segs <> [] ->
  Forall (fun seg => JsString.contains c seg = false) segs ->
  JsString.split c (JsString.join (String c "") segs) = segs.
Proof.
  induction segs as [|x [|y l] IH]; [done| |].
  - intros _ [Hx _]%Forall_cons. simpl. by apply split_no_sep.
  - intros _ [Hx Hl]%Forall_cons. rewrite join_cons_cons.
    change (String c "" +:+ ?u) with (String c u).
    rewrite split_app_sep by done. f_equal. by apply IH.
Qed.

Lemma split_segments_no_sep c s :
  Forall (fun seg => JsString.contains c seg = false) (JsString.split c s).
Proof.
  induction s as [|a s IH]; simpl; [by repeat constructor|].
  destruct (Ascii.eqb_spec a c) as [->|Hne]; [by constructor|].
  destruct (JsString.split c s) as [|x l]; [|].
  - repeat constructor. simpl. by rewrite (proj2 (Ascii.eqb_neq _ _) Hne).
  - apply Forall_cons in IH as [Hx Hl]. constructor; [|done].
    simpl. by rewrite (proj2 (Ascii.eqb_neq _ _) Hne), Hx.
Qed.

Lemma breakAt_app c s :
  (PathSpec.breakAt c s).1 +:+ (PathSpec.breakAt c s).2 = s.
Proof.
  induction s as [|a s IH]; [done|]. simpl.
  destruct (Ascii.eqb a c); [done|].
  destruct (PathSpec.breakAt c s) as [p r]. simpl in *.
  by rewrite str_app_cons, IH.
Qed.

Lemma breakAt_prefix_free c s :
  JsString.contains c (PathSpec.breakAt c s).1 = false.
Proof.
  induction s as [|a s IH]; [done|]. simpl.
  destruct (Ascii.eqb a c) eqn:E; [done|].
  destruct (PathSpec.breakAt c s) as [p r]. simpl in *. by rewrite E, IH.
Qed.

Lemma indexOf_breakAt c s :
  JsString.contains c s = true ->
  JsString.indexOf s c = Z.of_nat (String.length (PathSpec.breakAt c s).1).
Proof.
  induction s as [|a s IH]; [done|]. simpl.
  destruct (Ascii.eqb a c) eqn:E; [done|]. simpl. intros Hs.
  rewrite (IH Hs). destruct (PathSpec.breakAt c s) as [p r]. simpl.
  destruct (Z.ltb_spec (Z.of_nat (String.length p)) 0); lia.
Qed.

Lemma indexOf_absent c s :
  JsString.contains c s = false -> JsString.indexOf s c = (-1)%Z.
Proof.
  induction s as [|a s IH]; [done|]. simpl.
  intros [Ha Hs]%orb_false_elim. by rewrite Ha, (IH Hs).
Qed.

(** Every string is the join of its separator-free segments. *)
Lemma path_segments c s :
  JsString.split c s <> [] /\
  Forall (fun seg => JsString.contains c seg = false) (JsString.split c s) /\
  JsString.join (String c "") (JsString.split c s) = s.
Proof.
  split; [apply split_ne_nil|]. split; [apply split_segments_no_sep|].
  apply join_split.
Qed.

(** [breakAt] cuts before the first occurrence of the character. *)
Lemma breakAt_spec c s p r :
  PathSpec.breakAt c s = (p, r) ->
  s = p +:+ r /\ JsString.contains c p = false /\
  (JsString.contains c s = true -> exists r', r = String c r').
Proof.
  intros Hb. pose proof (breakAt_app c s) as Happ.
  pose proof (breakAt_prefix_free c s) as Hfree.
  rewrite Hb in Happ, Hfree. simpl in Happ, Hfree.
  split; [done|]. split; [done|]. clear Happ Hfree. revert p r Hb.
  induction s as [|a s IH]; intros p r Hb Hc; [done|]. simpl in Hb, Hc.
  destruct (Ascii.eqb_spec a c) as [->|Hne].
  - injection Hb as <- <-. by eexists.
  - destruct (PathSpec.breakAt c s) as [p' r'] eqn:Hs.
    injection Hb as <- <-. by eapply IH.
Qed.

Lemma substring_all s : String.substring 0 (String.length s) s = s.
Proof. induction s as [|a s IH]; [done|]. simpl. by rewrite IH. Qed.

Lemma substring_take s t :
  String.substring 0 (String.length s) (s +:+ t) = s.
Proof.
  induction s as [|a s IH].
  - by destruct t.
  - rewrite str_app_cons. simpl. by rewrite IH.
Qed.

Lemma substring_drop s t :
  String.substring (String.length s) (String.length t) (s +:+ t) = t.
Proof.
  induction s as [|a s IH]; [apply substring_all|].
  rewrite str_app_cons. simpl. apply IH.
Qed.

Lemma js_substring_prefix s t :
  JsString.substring (s +:+ t) 0 (Z.of_nat (String.length s)) = s.
Proof.
  unfold JsString.substring. rewrite str_length_app.
  replace (Z.max 0 (Z.min 0 _)) with 0%Z by lia.
  replace (Z.max 0 (Z.min (Z.of_nat (String.length s)) _))
    with (Z.of_nat (String.length s)) by lia.
  rewrite Z.min_l, Z.max_r by lia.
  rewrite Z.sub_0_r, Nat2Z.id. apply substring_take.
Qed.

Lemma js_substringFrom_suffix s t :
  JsString.substringFrom (s +:+ t) (Z.of_nat (String.length s)) = t.
Proof.
  unfold JsString.substringFrom, JsString.substring. rewrite str_length_app.
  replace (Z.max 0 (Z.min (Z.of_nat (String.length s)) _))
    with (Z.of_nat (String.length s)) by lia.
  replace (Z.max 0 (Z.min (Z.of_nat (String.length s + String.length t)) _))
    with (Z.of_nat (String.length s + String.length t)) by lia.
  rewrite Z.min_l, Z.max_r by lia.
  replace (Z.to_nat (Z.of_nat (String.length s + String.length t)
                     - Z.of_nat (String.length s)))
    with (String.length t) by lia.
  rewrite Nat2Z.id. apply substring_drop.
Qed.

End StringFacts.

(** ** ExpressionAttributes: values *)

Section ValueFacts.
Import ExpressionAttributes Invariant.
Implicit Types (ea : ExpressionAttributes.t) (rs : list Request).

Lemma valueAlias_inj i j : valueAlias i = valueAlias j -> i = j.
Proof.
  unfold valueAlias. intros H. apply (inj (String.app ":v")) in H.
  by apply (inj pretty) in H.
Qed.

Lemma nameAlias_inj i j : nameAlias i = nameAlias j -> i = j.
Proof.
  unfold nameAlias. intros H. apply (inj (String.app "#n")) in H.
  by apply (inj pretty) in H.
Qed.

Lemma addName_values name ea :
  values (addName name ea).2 = values ea /\
  nextValue (addName name ea).2 = nextValue ea.
Proof.
  unfold addName. destruct (isReservedName ea name); [done|].
  destruct (negb (isValidName ea name)); [|done].
  by destruct (forInNames _ _ _).
Qed.

Lemma addSegments_values segs acc :
  values (fold_left addSegment segs acc).2 = values acc.2 /\
  nextValue (fold_left addSegment segs acc).2 = nextValue acc.2.
Proof.
  revert acc. induction segs as [|seg segs IH]; intros [prev ea]; [done|].
  cbn [fold_left]. destruct (IH (addSegment (prev, ea) seg)) as [-> ->].
  unfold addSegment. destruct (JsString.endsWith seg "]").
  - pose proof (addName_values
      (JsString.substring seg 0 (JsString.indexOf seg "[")) ea) as Hv.
    by destruct (addName _ ea).
  - pose proof (addName_values seg ea) as Hv. by destruct (addName seg ea).
Qed.

Lemma addPath_values path ea :
  values (addPath path ea).2 = values ea /\
  nextValue (addPath path ea).2 = nextValue ea.
Proof.
  unfold addPath. destruct (treatNameAsPath ea); [|apply addName_values].
  pose proof (addSegments_values (JsString.split "." path) ([], ea)) as Hv.
  by destruct (fold_left _ _ _).
Qed.

Lemma requests_app rs1 rs2 ea :
  requests (rs1 ++ rs2) ea =
  ((requests rs1 ea).1 ++ (requests rs2 (requests rs1 ea).2).1,
   (requests rs2 (requests rs1 ea).2).2).
Proof.
  revert ea. induction rs1 as [|r rs1 IH]; intros ea; simpl.
  - by destruct (requests rs2 ea).
  - destruct (request r ea) as [a ea1]. rewrite IH.
    destruct (requests rs1 ea1) as [o1 e1]. simpl.
    by destruct (requests rs2 e1).
Qed.

Lemma requests_length rs ea : length (requests rs ea).1 = length rs.
Proof.
  revert ea. induction rs as [|r rs IH]; intros ea; simpl; [done|].
  destruct (request r ea) as [a ea1]. specialize (IH ea1).
  destruct (requests rs ea1). simpl in *. by rewrite IH.
Qed.

Lemma countValues_app rs1 rs2 :
  countValues (rs1 ++ rs2) = countValues rs1 + countValues rs2.
Proof. unfold countValues. by rewrite filter_app, length_app. Qed.

Lemma requests_nextValue rs ea :
  nextValue (requests rs ea).2 = nextValue ea + countValues rs.
Proof.
  revert ea. induction rs as [|r rs IH]; intros ea; simpl.
  { unfold countValues. simpl. lia. }
  destruct (request r ea) as [a ea1] eqn:Hr. specialize (IH ea1).
  destruct (requests rs ea1) as [outs ea2]. simpl in *. rewrite IH.
  change (r :: rs) with ([r] ++ rs). rewrite countValues_app.
  destruct r as [p|v]; simpl in Hr.
  - pose proof (addPath_values p ea) as [_ Hn]. rewrite Hr in Hn.
    simpl in Hn. rewrite Hn. unfold countValues. simpl. lia.
  - unfold addValue in Hr. injection Hr as _ <-. simpl.
    unfold countValues. simpl. lia.
Qed.

(** The values object only grows, by numbered aliases. *)
Lemma requests_values rs ea :
  valuesInv ea ->
  valuesInv (requests rs ea).2 /\
  exists ext, values (requests rs ea).2 = values ea ++ ext.
Proof.
  revert ea. induction rs as [|r rs IH]; intros ea Hinv; simpl.
  - split; [done|]. exists []. by rewrite app_nil_r.
  - destruct (request r ea) as [a ea1] eqn:Hr.
    assert (valuesInv ea1 /\ exists ext, values ea1 = values ea ++ ext)
      as [Hinv1 [ext1 Hext1]].
    { destruct r as [p|v]; simpl in Hr.
      - pose proof (addPath_values p ea) as [Hv Hn]. rewrite Hr in Hv, Hn.
        simpl in Hv, Hn. unfold valuesInv. rewrite Hv, Hn. split; [done|].
        exists []. by rewrite app_nil_r.
      - unfold addValue in Hr. injection Hr as _ <-. simpl.
        assert (Hfresh : valueAlias (nextValue ea) ∉ Obj.keys (values ea)).
        { rewrite Hinv. intros (j & Hj%valueAlias_inj & Hin)%list_elem_of_fmap.
          apply elem_of_seq in Hin. lia. }
        fold (valueAlias (nextValue ea)).
        rewrite obj_set_fresh by done. split; [|by eexists].
        unfold valuesInv, Obj.keys in *. cbn [values nextValue withValues].
        rewrite fmap_app, Hinv, seq_S, fmap_app. done. }
    destruct (IH ea1 Hinv1) as [Hinv2 [ext2 Hext2]].
    destruct (requests rs ea1) as [outs ea2]. simpl in *.
    split; [done|]. exists (ext1 ++ ext2).
    by rewrite Hext2, Hext1, (assoc_L (++)).
Qed.

Lemma countValues_take_lt rs i j w :
  i < j -> rs !! i = Some (ReqValue w) ->
  countValues (take i rs) < countValues (take j rs).
Proof.
  intros Hlt Hi.
  rewrite <-(take_drop i (take j rs)), take_take, Nat.min_l by lia.
  rewrite countValues_app.
  assert (Hd : drop i (take j rs) !! 0 = Some (ReqValue w)).
  { rewrite lookup_drop, Nat.add_0_r, lookup_take_lt by lia. done. }
  destruct (drop i (take j rs)) as [|r l]; [done|].
  simpl in Hd. injection Hd as ->. unfold countValues.
  rewrite filter_cons_True by done. simpl. lia.
Qed.

(** What one [addValue] call in a sequence of calls returns and leaves. *)
Lemma requests_value_at rs ea i v :
  valuesInv ea -> rs !! i = Some (ReqValue v) ->
  let alias := valueAlias (nextValue ea + countValues (take i rs)) in
  (requests rs ea).1 !! i = Some alias /\
  Obj.get (values (requests (take i rs) ea).2) alias = None /\
  Obj.get (values (requests rs ea).2) alias = Some v.
Proof.
  intros Hinv Hi alias.
  pose proof (take_drop_middle rs i _ Hi) as Hsplit.
  pose proof (requests_values (take i rs) ea Hinv) as [Hinv1 _].
  pose proof (requests_nextValue (take i rs) ea) as Hn1.
  pose proof (requests_length (take i rs) ea) as Hlen.
  rewrite length_take, Nat.min_l in Hlen
    by (apply Nat.lt_le_incl; by eapply lookup_lt_Some).
  set (e1 := (requests (take i rs) ea).2) in *.
  assert (Hfresh : alias ∉ Obj.keys (values e1)).
  { rewrite Hinv1. intros (j & Hj%valueAlias_inj & Hin)%list_elem_of_fmap.
    apply elem_of_seq in Hin. lia. }
  split; [|split].
  - rewrite <-Hsplit at 1. rewrite requests_app. simpl.
    fold e1. unfold addValue. rewrite Hn1. fold alias.
    destruct (requests (drop (S i) rs) _) as [o3 e3]. simpl.
    rewrite lookup_app_r by lia. by rewrite Hlen, Nat.sub_diag.
  - by apply obj_get_None_keys.
  - rewrite <-Hsplit. rewrite requests_app. simpl. fold e1.
    unfold addValue. rewrite Hn1.
    fold (valueAlias (nextValue ea + countValues (take i rs))). fold alias.
    set (e2 := withValues e1 (Obj.set (values e1) alias v) _).
    assert (Hinv2 : valuesInv e2).
    { unfold valuesInv in *. unfold e2. cbn [values nextValue withValues].
      rewrite obj_set_fresh by done.
      unfold Obj.keys in *. rewrite fmap_app, Hinv1, seq_S, fmap_app.
      by rewrite Hn1. }
    pose proof (requests_values (drop (S i) rs) e2 Hinv2) as [_ [ext Hext]].
    destruct (requests (drop (S i) rs) e2) as [o3 e3]. simpl in *.
    rewrite Hext. apply obj_get_app_l. unfold e2. simpl.
    apply obj_get_set_eq.
Qed.

End ValueFacts.

(** ** ExpressionAttributes: names *)

Section NameFacts.
Import ExpressionAttributes Invariant Names.
Implicit Types (ea : ExpressionAttributes.t) (ns ext : Obj.t string).
Implicit Types (name a : string).

Lemma obj_get_mid {V} (pre post : Obj.t V) k (v : V) :
  k ∉ Obj.keys pre -> Obj.get (pre ++ (k, v) :: post) k = Some v.
Proof.
  unfold Obj.keys. induction pre as [|[k' v'] pre IH]; simpl.
  - intros _. by rewrite eqb_refl_true.
  - intros [Hne Hk]%not_elem_of_cons. rewrite eqb_ne_false by done. auto.
Qed.

Lemma obj_get_elem {V} (o : Obj.t V) k (v : V) :
  NoDup (Obj.keys o) -> (k, v) ∈ o -> Obj.get o k = Some v.
Proof.
  intros Hnd Hin. rewrite obj_get_to_map. unfold Obj.to_map.
  by apply elem_of_list_to_map.
Qed.


(** The loop of [addName] finds the first alias of the name. *)
Lemma forInNames_firstAlias ns name :
  NoDup (Obj.keys ns) ->
  forInNames ns (Obj.keys ns) name = firstAlias ns name.
Proof.
  assert (Hgen : forall pre post,
    NoDup (Obj.keys (pre ++ post)) ->
    forInNames (pre ++ post) (Obj.keys post) name = firstAlias post name).
  { intros pre post. revert pre.
    induction post as [|[k v] post IH]; intros pre Hnd; [done|].
    assert (Hk : k ∉ Obj.keys pre).
    { unfold Obj.keys in *. rewrite fmap_app in Hnd.
      apply NoDup_app in Hnd as (_ & Hd & _). intros Hin.
      apply (Hd _ Hin). simpl. by left. }
    cbn [Obj.keys fmap list_fmap fst forInNames firstAlias].
    rewrite (obj_get_mid pre post k v Hk).
    destruct (String.eqb v name); [done|].
    specialize (IH (pre ++ [(k, v)])).
    rewrite <-!(assoc_L (++)) in IH. by apply IH. }
  intros Hnd. by apply (Hgen [] ns).
Qed.

Lemma firstAlias_Some ns name a :
  firstAlias ns name = Some a -> (a, name) ∈ ns.
Proof.
  induction ns as [|[k v] ns IH]; simpl; [done|].
  destruct (String.eqb_spec v name) as [->|Hne].
  - intros [= ->]. by left.
  - intros H. right. auto.
Qed.

Lemma firstAlias_None ns name :
  firstAlias ns name = None <-> name ∉ ns.*2.
Proof.
  induction ns as [|[k v] ns IH]; simpl.
  - split; [intros _; apply not_elem_of_nil|done].
  - rewrite not_elem_of_cons. destruct (String.eqb_spec v name) as [->|Hne].
    + split; [done|]. by intros [? _].
    + rewrite IH. split; [|by intros [_ ?]].
      intros H. split; [congruence|done].
Qed.

Lemma firstAlias_app_old ns ext name :
  name ∈ ns.*2 -> firstAlias (ns ++ ext) name = firstAlias ns name.
Proof.
  induction ns as [|[k v] ns IH]; simpl.
  - by intros ?%elem_of_nil.
  - destruct (String.eqb_spec v name) as [->|Hne]; [done|].
    intros [?|?]%elem_of_cons; [done|auto].
Qed.

Lemma firstAlias_app_new ns name a :
  name ∉ ns.*2 -> firstAlias (ns ++ [(a, name)]) name = Some a.
Proof.
  induction ns as [|[k v] ns IH]; simpl.
  - intros _. by rewrite eqb_refl_true.
  - intros [Hne Hn]%not_elem_of_cons. rewrite eqb_ne_false by done. auto.
Qed.


Lemma namesInv_NoDup_keys ea : namesInv ea -> NoDup (Obj.keys (names ea)).
Proof.
  intros [Hk _]. rewrite Hk. apply NoDup_fmap_2; [|apply NoDup_seq].
  intros i j. apply nameAlias_inj.
Qed.

Lemma aliasOf_firstAlias ns name :
  NoDup (Obj.keys ns) -> aliasOf ns name = default "" (firstAlias ns name).
Proof. intros Hnd. unfold aliasOf. by rewrite forInNames_firstAlias. Qed.

End NameFacts.

(** ** ExpressionAttributes: the names object under alias requests *)

Section EvolutionFacts.
Import ExpressionAttributes Invariant Names Evolution.
Implicit Types (ea : ExpressionAttributes.t) (ns ext : Obj.t string).
Implicit Types (name a : string) (asked : list string).

Lemma grows_refl ea : namesInv ea -> defaultPredicates ea -> grows [] ea ea.
Proof.
  intros Hinv Hdef. split; [done|]. split; [done|]. split; [done|]. split.
  - exists []. by rewrite app_nil_r.
  - intros m. split; [by left|]. by intros [?|?%elem_of_nil].
Qed.

Lemma grows_withValues ea vs next :
  namesInv ea -> defaultPredicates ea -> grows [] ea (withValues ea vs next).
Proof.
  intros Hinv Hdef. split; [done|]. split; [done|]. split; [done|]. split.
  - exists []. by rewrite app_nil_r.
  - intros m. split; [by left|]. by intros [?|?%elem_of_nil].
Qed.

Lemma grows_trans asked1 asked2 ea ea1 ea2 :
  grows asked1 ea ea1 -> grows asked2 ea1 ea2 ->
  grows (asked1 ++ asked2) ea ea2.
Proof.
  intros (_ & _ & Hf1 & [e1 He1] & Hm1) (Hinv & Hdef & Hf2 & [e2 He2] & Hm2).
  split; [done|]. split; [done|]. split; [congruence|]. split.
  - exists (e1 ++ e2). by rewrite He2, He1, (assoc_L (++)).
  - intros m. rewrite Hm2, Hm1, elem_of_app. tauto.
Qed.

Lemma grows_NoDup_keys asked ea ea' :
  grows asked ea ea' -> NoDup (Obj.keys (names ea)).
Proof.
  intros (Hinv & _ & _ & [ext Hext] & _).
  apply namesInv_NoDup_keys in Hinv. rewrite Hext in Hinv.
  unfold Obj.keys in *. rewrite fmap_app in Hinv.
  by apply NoDup_app in Hinv as (? & _ & _).
Qed.

(** An alias, once handed out, is the alias of its name for good. *)
Lemma aliasOf_stable asked ea ea' name :
  grows asked ea ea' -> name ∈ (names ea).*2 ->
  aliasOf (names ea') name = aliasOf (names ea) name.
Proof.
  intros Hg Hin. pose proof (grows_NoDup_keys _ _ _ Hg) as Hnd.
  destruct Hg as (Hinv & _ & _ & [ext Hext] & _).
  rewrite !aliasOf_firstAlias; [|done|by apply namesInv_NoDup_keys].
  by rewrite Hext, firstAlias_app_old.
Qed.

(** One [addName] call under the default predicates. *)
Lemma addName_grows name ea :
  namesInv ea -> defaultPredicates ea ->
  grows [name] ea (addName name ea).2 /\
  (addName name ea).1 = aliasOf (names (addName name ea).2) name.
Proof.
  intros Hinv Hdef. pose proof (namesInv_NoDup_keys _ Hinv) as Hnd.
  destruct Hdef as [Hres Hval]. unfold addName. rewrite Hres, Hval. simpl.
  rewrite forInNames_firstAlias by done.
  destruct (firstAlias (names ea) name) as [a|] eqn:Hfirst; simpl.
  - assert (Hheld : name ∈ (names ea).*2).
    { apply firstAlias_Some in Hfirst.
      by apply (list_elem_of_fmap_2 snd) in Hfirst. }
    split.
    + split; [done|]. split; [done|]. split; [done|]. split.
      * exists []. by rewrite app_nil_r.
      * intros m. split; [by left|].
        intros [?|?%list_elem_of_singleton]; by subst.
    + by rewrite aliasOf_firstAlias, Hfirst.
  - apply firstAlias_None in Hfirst.
    destruct Hinv as [Hkeys Hvals].
    assert (Hfresh : nameAlias (nextName ea) ∉ Obj.keys (names ea)).
    { rewrite Hkeys. intros (j & Hj%nameAlias_inj & Hin)%list_elem_of_fmap.
      apply elem_of_seq in Hin. lia. }
    fold (nameAlias (nextName ea)). rewrite obj_set_fresh by done.
    assert (Hinv' : namesInv (withNames ea
              (names ea ++ [(nameAlias (nextName ea), name)])
              (S (nextName ea)))).
    { split; cbn [names nextName withNames].
      - unfold Obj.keys in *. rewrite fmap_app, Hkeys, seq_S, fmap_app. done.
      - rewrite fmap_app. apply NoDup_app. split; [done|]. split.
        + intros m Hm ->%list_elem_of_singleton. done.
        + apply NoDup_singleton. }
    split.
    + split; [done|]. split; [done|]. split; [done|].
      cbn [names withNames]. split; [by eexists|].
      intros m. rewrite fmap_app, elem_of_app. simpl. tauto.
    + cbn [names withNames]. rewrite aliasOf_firstAlias.
      * by rewrite firstAlias_app_new.
      * by apply (namesInv_NoDup_keys _ Hinv').
Qed.

Lemma addSegment_eq prev ea seg :
  addSegment (prev, ea) seg =
  (prev ++ [(addName (segmentName seg) ea).1 +:+ segmentSuffix seg],
   (addName (segmentName seg) ea).2).
Proof.
  unfold addSegment, segmentName, segmentSuffix.
  destruct (JsString.endsWith seg "]").
  - by destruct (addName _ ea).
  - destruct (addName seg ea). simpl. by rewrite str_app_nil_r.
Qed.

(** The [reduce] of [addPath] under the default predicates. *)
Lemma addSegments_grows segs prev ea :
  namesInv ea -> defaultPredicates ea ->
  let r := fold_left addSegment segs (prev, ea) in
  grows (segmentName <$> segs) ea r.2 /\
  r.1 = prev ++
        ((fun seg => aliasOf (names r.2) (segmentName seg)
                     +:+ segmentSuffix seg) <$> segs).
Proof.
  revert prev ea. induction segs as [|seg segs IH]; intros prev ea Hinv Hdef.
  - simpl. split; [by apply grows_refl|by rewrite app_nil_r].
  - cbn [fold_left]. rewrite addSegment_eq.
    destruct (addName_grows (segmentName seg) ea Hinv Hdef) as [Hg1 Ha].
    rewrite Ha. set (ea1 := (addName (segmentName seg) ea).2) in *.
    assert (Hinv1 : namesInv ea1) by apply Hg1.
    assert (Hdef1 : defaultPredicates ea1) by apply Hg1.
    destruct (IH (prev ++ [aliasOf (names ea1) (segmentName seg)
                           +:+ segmentSuffix seg]) ea1 Hinv1 Hdef1)
      as [Hg2 Hout].
    cbv zeta in *. split.
    + apply (grows_trans [segmentName seg] _ _ _ _ Hg1 Hg2).
    + rewrite Hout, <-(assoc_L (++)). f_equal.
      rewrite fmap_cons. cbn [app]. f_equal. f_equal.
      symmetry. eapply aliasOf_stable; [exact Hg2|].
      apply Hg1. right. by left.
Qed.

(** One [addPath] call under the default predicates. *)
Lemma addPath_grows path ea :
  namesInv ea -> defaultPredicates ea ->
  grows (pathNames (treatNameAsPath ea) path) ea (addPath path ea).2 /\
  (addPath path ea).1 =
    renderPath (treatNameAsPath ea) (names (addPath path ea).2) path.
Proof.
  intros Hinv Hdef. unfold addPath, pathNames, renderPath.
  destruct (treatNameAsPath ea).
  - pose proof (addSegments_grows (JsString.split "." path) [] ea Hinv Hdef)
      as [Hg Hout].
    cbv zeta in *. destruct (fold_left _ _ _) as [pathList ea']. simpl in *.
    split; [done|]. by rewrite Hout.
  - by apply addName_grows.
Qed.

Lemma renderPath_stable asked ea ea' path :
  grows asked ea ea' ->
  (forall n, n ∈ pathNames (treatNameAsPath ea) path -> n ∈ (names ea).*2) ->
  renderPath (treatNameAsPath ea) (names ea') path =
  renderPath (treatNameAsPath ea) (names ea) path.
Proof.
  intros Hg Hheld. unfold renderPath, pathNames in *.
  destruct (treatNameAsPath ea).
  - f_equal. apply list_fmap_ext. intros _ seg Hseg%list_elem_of_lookup_2.
    f_equal. eapply aliasOf_stable; [done|].
    apply Hheld. by apply list_elem_of_fmap_2.
  - eapply aliasOf_stable; [done|]. apply Hheld. by left.
Qed.

Lemma request_grows r ea :
  namesInv ea -> defaultPredicates ea ->
  grows (requestNames (treatNameAsPath ea) r) ea (request r ea).2 /\
  (forall out, renderRequest (treatNameAsPath ea) (names (request r ea).2) r
               = Some out -> (request r ea).1 = out).
Proof.
  intros Hinv Hdef. destruct r as [p|v]; simpl.
  - destruct (addPath_grows p ea Hinv Hdef) as [Hg Hout].
    split; [done|]. intros out [= <-]. done.
  - split; [|done]. by apply grows_withValues.
Qed.

(** A sequence of calls under the default predicates. *)
Lemma requests_grows rs ea :
  namesInv ea -> defaultPredicates ea ->
  grows (requestedNames (treatNameAsPath ea) rs) ea (requests rs ea).2 /\
  (forall i r out,
      rs !! i = Some r ->
      renderRequest (treatNameAsPath ea) (names (requests rs ea).2) r
        = Some out ->
      (requests rs ea).1 !! i = Some out).
Proof.
  revert ea. induction rs as [|r rs IH]; intros ea Hinv Hdef.
  - simpl. split; [by apply grows_refl|done].
  - destruct (request_grows r ea Hinv Hdef) as [Hg1 Hout1].
    simpl. destruct (request r ea) as [a ea1] eqn:Hr. simpl in *.
    assert (Hinv1 : namesInv ea1) by apply Hg1.
    assert (Hdef1 : defaultPredicates ea1) by apply Hg1.
    assert (Hflag : treatNameAsPath ea1 = treatNameAsPath ea) by apply Hg1.
    destruct (IH ea1 Hinv1 Hdef1) as [Hg2 Hout2]. rewrite Hflag in Hg2, Hout2.
    destruct (requests rs ea1) as [outs ea2]. simpl in *. split.
    + unfold requestedNames. simpl.
      by apply (grows_trans _ _ _ _ _ Hg1 Hg2).
    + intros [|i] r' out Hi Hrender; simpl in *; [|by eapply Hout2].
      injection Hi as <-. f_equal. apply Hout1. rewrite <-Hrender.
      destruct r as [p|v]; [|done]. simpl. f_equal. symmetry.
      rewrite <-Hflag. eapply renderPath_stable; [exact Hg2|].
      intros n Hn. apply Hg1. right. simpl. by rewrite <-Hflag.
Qed.

End EvolutionFacts.

(** ** ExpressionAttributes: the claims *)

Section ExpressionAttributesClaims.
Import ExpressionAttributes Invariant Names Evolution.
Implicit Types (ea : ExpressionAttributes.t) (ns : Obj.t string).
Implicit Types (name : string).

Lemma fresh_namesInv ea :
  names ea = [] -> nextName ea = 0 -> namesInv ea.
Proof.
  intros Hn Hk. unfold namesInv. rewrite Hn, Hk. split; [done|constructor].
Qed.

Lemma fresh_valuesInv ea :
  values ea = [] -> nextValue ea = 0 -> valuesInv ea.
Proof. intros Hv Hk. unfold valuesInv. by rewrite Hv, Hk. Qed.

(** [reset()] puts an instance back in the state it was created in, its
    settings apart. *)
Lemma reset_fresh ea :
  names (reset ea) = [] /\ nextName (reset ea) = 0 /\
  values (reset ea) = [] /\ nextValue (reset ea) = 0 /\
  isReservedName (reset ea) = isReservedName ea /\
  isValidName (reset ea) = isValidName ea /\
  treatNameAsPath (reset ea) = treatNameAsPath ea.
Proof. done. Qed.




(** C2. Value non-dedup: on an instance with no value registered yet, the
    [addValue] call at position [i] of any sequence of calls returns
    [:v<k>], [k] being the number of [addValue] calls before it; that alias
    was not in the values object before the call, the exported values
    object maps it to the value supplied, and no other [addValue] call of
    the sequence returns it, equal values or not. *)
Theorem addValue_never_dedups (ea0 : ExpressionAttributes.t)
  (rs : list Request) (i : nat) (v : jsval) :
  values ea0 = [] -> nextValue ea0 = 0 ->
  rs !! i = Some (ReqValue v) ->
  let alias := ":v" +:+ pretty (countValues (take i rs)) in
  (requests rs ea0).1 !! i = Some alias /\
  Obj.get (values (requests (take i rs) ea0).2) alias = None /\
  Obj.get (getValues (requests rs ea0).2) alias = Some v /\
  (forall j w, j <> i -> rs !! j = Some (ReqValue w) ->
               (requests rs ea0).1 !! j <> Some alias).
Proof.
  intros Hv Hk Hi alias.
  pose proof (fresh_valuesInv ea0 Hv Hk) as Hinv.
  destruct (requests_value_at rs ea0 i v Hinv Hi) as (Hout & Hnew & Hexp).
  rewrite Hk in Hout, Hnew, Hexp. simpl in Hout, Hnew, Hexp.
  split; [done|]. split; [done|]. split; [done|].
  intros j w Hne Hj.
  destruct (requests_value_at rs ea0 j w Hinv Hj) as (Houtj & _ & _).
  rewrite Hk in Houtj. simpl in Houtj. rewrite Houtj.
  intros Heq. apply (inj Some) in Heq. apply valueAlias_inj in Heq.
  destruct (Nat.lt_total j i) as [Hlt|[->|Hlt]]; [|done|].
  - pose proof (countValues_take_lt rs j i w Hlt Hj). lia.
  - pose proof (countValues_take_lt rs i j v Hlt Hi). lia.
Qed.

Lemma addValue_never_dedups_witness :
  let rs := [ReqValue (VStr "x"); ReqPath "a"; ReqValue (VStr "x")] in
  (values new = [] /\ nextValue new = 0 /\ rs !! 2 = Some (ReqValue (VStr "x")))
  /\ (requests rs new).1 !! 2 = Some ":v1"
  /\ Obj.get (getValues (requests rs new).2) ":v1" = Some (VStr "x").
Proof.
  intros rs. split; [repeat split; reflexivity|].
  pose proof (addValue_never_dedups new rs 2 (VStr "x")
                eq_refl eq_refl eq_refl) as (H1 & _ & H3 & _).
  split; [exact H1|exact H3].
Defined.

(** C5, as the code has it. A name the reserved-name predicate marks gets
    the alias [#] followed by the name itself, recorded in the names object
    without drawing a sequence number and without touching the other
    aliases; a name that is not reserved and that the valid-name predicate
    marks is returned unchanged and nothing is recorded. *)
Theorem addName_reserved_or_valid (ea : ExpressionAttributes.t)
  (name : string) :
  (isReservedName ea name = true ->
   (addName name ea).1 = "#" +:+ name /\
   Obj.get (names (addName name ea).2) ("#" +:+ name) = Some name /\
   nextName (addName name ea).2 = nextName ea /\
   (forall k, k <> "#" +:+ name ->
              Obj.get (names (addName name ea).2) k = Obj.get (names ea) k))
  /\
  (isReservedName ea name = false -> isValidName ea name = true ->
   addName name ea = (name, ea)).
Proof.
  unfold addName. split.
  - intros ->. cbn [fst snd names nextName withNames].
    split; [done|]. split; [apply obj_get_set_eq|]. split; [done|].
    intros k Hk. by apply obj_get_set_ne.
  - by intros -> ->.
Qed.

End ExpressionAttributesClaims.

Section PathClaims.
Import ExpressionAttributes.
Implicit Types (ea : ExpressionAttributes.t).

Lemma addName_reserved_or_valid_witness :
  (ExpressionAttributes.isReservedName Samples.reservedSize "size" = true /\
   ExpressionAttributes.isReservedName Samples.reservedSize "id" = false /\
   ExpressionAttributes.isValidName Samples.reservedSize "id" = true) /\
  (addName "size" Samples.reservedSize).1 = "#size" /\
  addName "id" Samples.reservedSize = ("id", Samples.reservedSize).
Proof.
  split; [repeat split; reflexivity|].
  pose proof (addName_reserved_or_valid Samples.reservedSize "size")
    as [Hres _].
  pose proof (addName_reserved_or_valid Samples.reservedSize "id")
    as [_ Hval].
  split; [exact (proj1 (Hres eq_refl))|exact (Hval eq_refl eq_refl)].
Defined.

(** The reserved word [size] is aliased [#size], which is not [#n] followed
    by a sequence number, and the counter does not move; the same word,
    which the valid-name predicate accepts too, is not returned unchanged. *)
Lemma addName_reserved_counterexample :
  ExpressionAttributes.isReservedName Samples.reservedSize "size" = true /\
  ExpressionAttributes.isValidName Samples.reservedSize "size" = true /\
  (addName "size" Samples.reservedSize).1 = "#size" /\
  nextName (addName "size" Samples.reservedSize).2 = 0 /\
  (forall k : nat,
      (addName "size" Samples.reservedSize).1 <> "#n" +:+ pretty k) /\
  (addName "size" Samples.reservedSize).1 <> "size".
Proof.
  split; [reflexivity|]. split; [reflexivity|]. split; [reflexivity|].
  split; [reflexivity|]. split; [|discriminate].
  intros k H. change ("#size" = String "#" (String "n" (pretty k))) in H.
  discriminate H.
Qed.

Lemma bracketed_segment seg :
  JsString.endsWith seg "]" = true -> PathSpec.bracketed seg = true ->
  segmentName seg = (PathSpec.breakAt "[" seg).1 /\
  segmentSuffix seg = (PathSpec.breakAt "[" seg).2.
Proof.
  unfold PathSpec.bracketed, segmentName, segmentSuffix. intros ->. simpl.
  intros Hc. rewrite (indexOf_breakAt _ _ Hc).
  pose proof (breakAt_app "[" seg) as Happ.
  destruct (PathSpec.breakAt "[" seg) as [p r]. simpl in *.
  rewrite <-Happ. by rewrite js_substring_prefix, js_substringFrom_suffix.
Qed.

Lemma addSegment_aliasSegment prev ea seg :
  PathSpec.bracketed seg = true ->
  addSegment (prev, ea) seg =
  (prev ++ [(PathSpec.aliasSegment seg ea).1],
   (PathSpec.aliasSegment seg ea).2).
Proof.
  intros Hb. rewrite addSegment_eq. unfold PathSpec.aliasSegment.
  destruct (JsString.endsWith seg "]") eqn:Hend.
  - destruct (bracketed_segment seg Hend Hb) as [-> ->].
    destruct (PathSpec.breakAt "[" seg) as [p r]. simpl.
    by destruct (addName p ea).
  - unfold segmentName, segmentSuffix. rewrite Hend.
    by rewrite str_app_nil_r.
Qed.

Lemma addSegments_aliasSegments segs prev ea :
  forallb PathSpec.bracketed segs = true ->
  fold_left addSegment segs (prev, ea) =
  (prev ++ (PathSpec.aliasSegments segs ea).1,
   (PathSpec.aliasSegments segs ea).2).
Proof.
  revert prev ea. induction segs as [|seg segs IH]; intros prev ea;
    cbn [fold_left forallb PathSpec.aliasSegments].
  - intros _. simpl. by rewrite app_nil_r.
  - intros [Hseg Hsegs]%andb_prop. rewrite addSegment_aliasSegment by done.
    rewrite IH by done. destruct (PathSpec.aliasSegment seg ea) as [a ea1].
    cbn [fst snd]. destruct (PathSpec.aliasSegments segs ea1) as [outs ea2].
    simpl. by rewrite <-(assoc_L (++)).
Qed.

Lemma addPath_split ea path :
  treatNameAsPath ea = true ->
  forallb PathSpec.bracketed (JsString.split "." path) = true ->
  addPath path ea = PathSpec.addPath (JsString.split "." path) ea.
Proof.
  unfold addPath, PathSpec.addPath. intros -> Hb.
  rewrite addSegments_aliasSegments by done.
  by destruct (PathSpec.aliasSegments _ ea).
Qed.

(** The segments of a dotted path are what was joined with dots. *)
Lemma addPath_of_segments ea segs :
  treatNameAsPath ea = true -> segs <> [] ->
  Forall (fun seg => JsString.contains "." seg = false) segs ->
  forallb PathSpec.bracketed segs = true ->
  addPath (JsString.join "." segs) ea = PathSpec.addPath segs ea.
Proof.
  intros Hflag Hne Hdots Hb.
  pose proof (split_join "." segs Hne Hdots) as Hsplit.
  rewrite addPath_split; [by rewrite Hsplit|done|by rewrite Hsplit].
Qed.

(** X18. With [treatNameAsPath] off the whole string is aliased as one
    name.  With it on, and every segment that ends with a closing bracket
    holding an opening one, the path is split at the dots,
    a segment ending with a closing bracket has the prefix before its first
    opening bracket aliased and the rest appended as it is, any other
    segment is aliased whole, and the results are joined with dots; the
    segments are the dot-free pieces the path is the join of. *)
Theorem addPath_aliases_segments (ea : ExpressionAttributes.t)
  (path : string) (segs : list string) :
  (treatNameAsPath ea = false -> addPath path ea = addName path ea) /\
  (treatNameAsPath ea = true ->
   forallb PathSpec.bracketed (JsString.split "." path) = true ->
   addPath path ea = PathSpec.addPath (JsString.split "." path) ea) /\
  (treatNameAsPath ea = true ->
   segs <> [] ->
   forallb (fun seg => negb (JsString.contains "." seg)) segs = true ->
   forallb PathSpec.bracketed segs = true ->
   addPath (JsString.join "." segs) ea = PathSpec.addPath segs ea).
Proof.
  split; [|split; [apply addPath_split|]].
  - unfold addPath. by intros ->.
  - intros Hflag Hne Hdots Hb. apply addPath_of_segments; try done.
    apply Forall_forall. intros seg Hseg.
    rewrite forallb_forall in Hdots. apply negb_true_iff, Hdots.
    by apply list_elem_of_In.
Qed.

Lemma addPath_aliases_segments_witness :
  (treatNameAsPath new = true /\
   forallb PathSpec.bracketed (JsString.split "." "list[0].name") = true) /\
  addPath "list[0].name" new
  = PathSpec.addPath ["list[0]"; "name"] new.
Proof.
  split; [split; reflexivity|].
  exact (proj1 (proj2 (addPath_aliases_segments new "list[0].name" []))
           eq_refl eq_refl).
Defined.

(** Without an opening bracket [indexOf] is [-1]: the name asked for is
    the empty string and the whole segment is what follows the alias. *)
Lemma unopened_segment seg :
  JsString.endsWith seg "]" = true -> JsString.contains "[" seg = false ->
  segmentName seg = "" /\ segmentSuffix seg = seg.
Proof.
  intros Hend Hno. unfold segmentName, segmentSuffix.
  rewrite Hend, (indexOf_absent _ _ Hno).
  unfold JsString.substringFrom, JsString.substring.
  replace (Z.max 0 (Z.min 0 _)) with 0%Z by lia.
  replace (Z.max 0 (Z.min (-1) _)) with 0%Z by lia.
  replace (Z.max 0 (Z.min (Z.of_nat (String.length seg)) _))
    with (Z.of_nat (String.length seg)) by lia.
  rewrite Z.min_id, Z.max_id, Z.min_l, Z.max_r by lia.
  rewrite Z.sub_diag, Z.sub_0_r, Nat2Z.id. simpl.
  split; [by destruct seg|apply substring_all].
Qed.

(** C6, where the code parts from it.  The path [a]] is one segment that
    ends with a closing bracket and has no opening one: [indexOf] answers
    [-1], which is not checked, so the code asks an alias for the empty
    name and appends the whole segment, where aliasing the prefix before
    the bracket and appending the bracket suffix gives the alias of [a]]
    alone. *)
Theorem addPath_unopened_bracket :
  treatNameAsPath new = true /\
  JsString.indexOf "a]" "[" = (-1)%Z /\
  (addPath "a]" new).1 = "#n0a]" /\
  names (addPath "a]" new).2 = [("#n0", "")] /\
  (PathSpec.addPath (JsString.split "." "a]") new).1 = "#n0" /\
  names (PathSpec.addPath (JsString.split "." "a]") new).2
  = [("#n0", "a]")] /\
  addPath "a]" new <> PathSpec.addPath (JsString.split "." "a]") new.
Proof.
  split; [reflexivity|]. split; [reflexivity|]. split; [reflexivity|].
  split; [reflexivity|]. split; [reflexivity|]. split; [reflexivity|].
  intros H. apply (f_equal fst) in H. vm_compute in H. discriminate H.
Qed.

Lemma addSegment_by_cases prev ea seg :
  addSegment (prev, ea) seg =
  (prev ++ [(PathCases.aliasSegment seg ea).1],
   (PathCases.aliasSegment seg ea).2).
Proof.
  unfold PathCases.aliasSegment.
  destruct (PathSpec.bracketed seg) eqn:Hb.
  - by apply addSegment_aliasSegment.
  - unfold PathSpec.bracketed in Hb.
    apply orb_false_iff in Hb as [Hend Hno].
    apply negb_false_iff in Hend.
    destruct (unopened_segment seg Hend Hno) as [Hname Hsuffix].
    rewrite addSegment_eq, Hname, Hsuffix.
    by destruct (addName "" ea).
Qed.

Lemma addSegments_by_cases segs prev ea :
  fold_left addSegment segs (prev, ea) =
  (prev ++ (PathCases.aliasSegments segs ea).1,
   (PathCases.aliasSegments segs ea).2).
Proof.
  revert prev ea. induction segs as [|seg segs IH]; intros prev ea;
    cbn [fold_left PathCases.aliasSegments].
  - simpl. by rewrite app_nil_r.
  - rewrite addSegment_by_cases, IH.
    destruct (PathCases.aliasSegment seg ea) as [a ea1]. cbn [fst snd].
    destruct (PathCases.aliasSegments segs ea1) as [outs ea2].
    simpl. by rewrite <-(assoc_L (++)).
Qed.

(** X19. With [treatNameAsPath] on, every path is split at the dots and
    its segments are aliased from left to right on the same instance, the
    results joined with dots.  A segment that does not end with a closing
    bracket is aliased whole; one that ends with a closing bracket and
    holds an opening one has the prefix before its first opening bracket
    aliased and the rest appended as it is; one that ends with a closing
    bracket and holds no opening one has the empty name aliased and is
    appended whole.  What one segment is does not change what is made of
    the others. *)
Theorem addPath_by_cases (ea : ExpressionAttributes.t) (path : string) :
  treatNameAsPath ea = true ->
  addPath path ea = PathCases.addPath (JsString.split "." path) ea.
Proof.
  unfold addPath, PathCases.addPath. intros ->.
  rewrite addSegments_by_cases.
  by destruct (PathCases.aliasSegments _ ea).
Qed.

Lemma addPath_by_cases_witness :
  treatNameAsPath new = true /\
  addPath "x.list[0].a]" new
  = PathCases.addPath ["x"; "list[0]"; "a]"] new.
Proof.
  split; [reflexivity|].
  exact (addPath_by_cases new "x.list[0].a]" eq_refl).
Defined.

(** The same path, written out. *)
Example addPath_by_cases_replay :
  (addPath "x.list[0].a]" new).1 = "#n0.#n1[0].#n2a]" /\
  names (addPath "x.list[0].a]" new).2
  = [("#n0", "x"); ("#n1", "list"); ("#n2", "")].
Proof. split; reflexivity. Qed.

End PathClaims.

(** ** Model.splitTableData *)

Section SplitTableData.
Import Attributes.
Implicit Types (data key item : Obj.t jsval) (name n : string).

Lemma obj_get_delete_eq {V} (o : Obj.t V) k :
  Obj.get (Obj.delete o k) k = None.
Proof. by rewrite obj_get_to_map, obj_to_map_delete, lookup_delete_eq. Qed.

Lemma obj_get_delete_ne {V} (o : Obj.t V) k k' :
  k <> k' -> Obj.get (Obj.delete o k) k' = Obj.get o k'.
Proof.
  intros. by rewrite !obj_get_to_map, obj_to_map_delete, lookup_delete_ne.
Qed.

Lemma ownStep_defined data key item name :
  definedIn data name = true ->
  exists v, Obj.get data name = Some v /\
            ownStep data (key, item) name
            = (Obj.set key name v, Obj.delete item name).
Proof.
  unfold definedIn, ownStep.
  destruct (Obj.get data name) as [v|]; [|done].
  intros Hv. exists v. split; [done|]. by destruct v.
Qed.

Lemma ownStep_undefined data key item name :
  definedIn data name = false ->
  ownStep data (key, item) name = (key, item).
Proof.
  unfold definedIn, ownStep.
  destruct (Obj.get data name) as [v|]; [|done]. by destruct v.
Qed.

(** The [forEach] of [splitTableData], read name by name. *)
Lemma ownStep_fold data ks key item n :
  let r := fold_left (ownStep data) ks (key, item) in
  Obj.get r.1 n =
    (if decide (n ∈ ks /\ definedIn data n = true)
     then Obj.get data n else Obj.get key n) /\
  Obj.get r.2 n =
    (if decide (n ∈ ks /\ definedIn data n = true)
     then None else Obj.get item n).
Proof.
  revert key item. induction ks as [|k ks IH]; intros key item; cbn zeta.
  - rewrite !decide_False; [done|by intros [?%elem_of_nil _]..].
  - cbn [fold_left]. destruct (definedIn data k) eqn:Hk.
    + destruct (ownStep_defined data key item k Hk) as (v & Hv & ->).
      destruct (IH (Obj.set key k v) (Obj.delete item k)) as [IH1 IH2].
      cbn zeta in IH1, IH2. rewrite IH1, IH2. clear IH IH1 IH2.
      destruct (decide (n = k)) as [->|Hne].
      * assert (Hin : k ∈ k :: ks /\ definedIn data k = true)
          by (split; [by left|done]).
        split; rewrite (decide_True _ _ Hin).
        -- rewrite obj_get_set_eq, Hv. by destruct (decide _).
        -- rewrite obj_get_delete_eq. by destruct (decide _).
      * rewrite obj_get_set_ne, obj_get_delete_ne by done.
        destruct (decide (n ∈ ks /\ definedIn data n = true)) as [[? ?]|Hn].
        -- assert (Hin : n ∈ k :: ks /\ definedIn data n = true)
             by (split; [by right|done]).
           split; by rewrite (decide_True _ _ Hin).
        -- assert (Hout : ~ (n ∈ k :: ks /\ definedIn data n = true)).
           { intros [[?|?]%elem_of_cons ?]; [done|]. by apply Hn. }
           split; by rewrite (decide_False _ _ Hout).
    + rewrite ownStep_undefined by done.
      destruct (IH key item) as [IH1 IH2]. cbn zeta in IH1, IH2.
      rewrite IH1, IH2. clear IH IH1 IH2.
      destruct (decide (n ∈ ks /\ definedIn data n = true)) as [[? ?]|Hn].
      * assert (Hin : n ∈ k :: ks /\ definedIn data n = true)
          by (split; [by right|done]).
        split; by rewrite (decide_True _ _ Hin).
      * assert (Hout : ~ (n ∈ k :: ks /\ definedIn data n = true)).
        { intros [[->|?]%elem_of_cons ?]; [congruence|]. by apply Hn. }
        split; by rewrite (decide_False _ _ Hout).
Qed.

Lemma ownSplit_key table data :
  Obj.to_map (ownSplit table data).1
  = filter (isKeyEntry table) (Obj.to_map data).
Proof.
  apply map_eq. intros n. unfold ownSplit.
  destruct (ownStep_fold data (Obj.keys (Table.keySchema table)) []
              (Obj.spread [] data) n) as [Hkey _].
  cbn zeta in Hkey. rewrite <-obj_get_to_map. etrans; [exact Hkey|].
  rewrite map_lookup_filter, <-obj_get_to_map. unfold definedIn, isKeyEntry.
  destruct (Obj.get data n) as [v|] eqn:Hn; simpl.
  - destruct (decide (n ∈ _ /\ negb (is_undefined v) = true)) as [[? Hv]|Hno].
    + rewrite option_guard_True; [done|].
      split; [done|]. simpl. by destruct (is_undefined v).
    + rewrite option_guard_False; [done|]. simpl. intros [? Hv].
      apply Hno. split; [done|]. by rewrite Hv.
  - by destruct (decide (n ∈ Obj.keys (Table.keySchema table)
                         /\ false = true)).
Qed.

Lemma ownSplit_item table data :
  Obj.to_map (ownSplit table data).2
  = filter (fun entry => ~ isKeyEntry table entry) (Obj.to_map data).
Proof.
  apply map_eq. intros n. unfold ownSplit.
  destruct (ownStep_fold data (Obj.keys (Table.keySchema table)) []
              (Obj.spread [] data) n) as [_ Hitem].
  cbn zeta in Hitem. rewrite <-obj_get_to_map. etrans; [exact Hitem|].
  rewrite map_lookup_filter, obj_get_spread, <-obj_get_to_map.
  unfold definedIn, isKeyEntry.
  destruct (Obj.get data n) as [v|] eqn:Hn; simpl.
  - destruct (decide (n ∈ _ /\ negb (is_undefined v) = true)) as [[? Hv]|Hno].
    + rewrite option_guard_False; [done|]. simpl. intros Hnot. apply Hnot.
      split; [done|]. by destruct (is_undefined v).
    + rewrite option_guard_True; [done|]. simpl. intros [? Hv].
      apply Hno. split; [done|]. by rewrite Hv.
  - by destruct (decide (n ∈ Obj.keys (Table.keySchema table)
                         /\ false = true)).
Qed.

(** With a name that [data] answers from its own properties or not at
    all, the prototype of [key] stays what [{}] gave it and the round is
    the round over the own properties. *)
Lemma splitStep_own data key item name :
  ownOrAbsent data name = true ->
  Model.splitStep data (Some (key, VBuiltin ObjectPrototype, item)) name
  = Some ((ownStep data (key, item) name).1, VBuiltin ObjectPrototype,
          (ownStep data (key, item) name).2).
Proof.
  unfold ownOrAbsent, Model.splitStep, Ordinary.get, ownStep.
  intros [Hproto Hown]%andb_prop. apply negb_true_iff in Hproto.
  cbn [mbind option_bind].
  destruct (Obj.get data name) as [v|].
  - destruct v; cbn [is_undefined fst snd]; try done;
      unfold Ordinary.assign, Ordinary.assignment,
        Ordinary.throughObjectPrototype;
      rewrite Hproto; by destruct (Obj.get key name).
  - by rewrite Hown.
Qed.

Lemma splitStep_fold_own data ks key item :
  forallb (ownOrAbsent data) ks = true ->
  fold_left (Model.splitStep data) ks
    (Some (key, VBuiltin ObjectPrototype, item))
  = Some ((fold_left (ownStep data) ks (key, item)).1,
          VBuiltin ObjectPrototype,
          (fold_left (ownStep data) ks (key, item)).2).
Proof.
  revert key item. induction ks as [|k ks IH]; intros key item;
    cbn [fold_left forallb]; [done|].
  intros [Hk Hks]%andb_prop. rewrite splitStep_own by done.
  destruct (ownStep data (key, item) k) as [key' item']. by apply IH.
Qed.

Lemma splitTableData_own table data :
  forallb (ownOrAbsent data) (Obj.keys (Table.keySchema table)) = true ->
  Model.splitTableData table data = Some (ownSplit table data).
Proof.
  intros Hown. unfold Model.splitTableData, ownSplit.
  rewrite splitStep_fold_own by done. cbn [mbind option_bind].
  by destruct (fold_left _ _ _).
Qed.

(** C3, where the code parts from it.  The key schema names the attribute
    [constructor] and the attribute map does not hold it: [data[name]]
    finds the function [Object] on the prototype of the map, so the key
    map gets an entry that is no entry of the input, it is not the part of
    the input named by the key schema, and key and item together are more
    than the input. *)
Theorem splitTableData_inherited_entry :
  let table := Table.mk "Orders" [("constructor", Table.HASH)] in
  let data := [("id", VStr "x")] in
  exists key item,
    Model.splitTableData table data = Some (key, item) /\
    key = [("constructor", VBuiltin ObjectFunction)] /\
    item = data /\
    Obj.get data "constructor" = None /\
    Obj.to_map key <> filter (isKeyEntry table) (Obj.to_map data) /\
    (Obj.to_map key ∪ Obj.to_map item) <> Obj.to_map data.
Proof.
  cbn zeta. eexists. eexists. split; [reflexivity|].
  split; [reflexivity|]. split; [reflexivity|]. split; [reflexivity|].
  split; intros H; apply (f_equal (fun m => m !! "constructor")) in H;
    revert H.
  - rewrite map_lookup_filter, <-!obj_get_to_map. discriminate.
  - rewrite lookup_union, <-!obj_get_to_map. discriminate.
Qed.

(** X17. When every name of the key schema is answered by the own
    properties of the attribute map or by nothing (none is [__proto__],
    and none that the map lacks is a member of [Object.prototype]),
    [splitTableData] partitions the map by name: the key map holds exactly
    the entries whose name is in the key schema and whose value is
    defined, the item map holds exactly the other entries, the two are
    disjoint and their union is the input. *)
Theorem splitTableData_partition_of_own (table : Table.t)
  (data : Obj.t jsval) :
  forallb (ownOrAbsent data) (Obj.keys (Table.keySchema table)) = true ->
  exists key item,
    Model.splitTableData table data = Some (key, item) /\
    Obj.to_map key = filter (isKeyEntry table) (Obj.to_map data) /\
    Obj.to_map item
    = filter (fun entry => ~ isKeyEntry table entry) (Obj.to_map data) /\
    Obj.to_map key ##ₘ Obj.to_map item /\
    Obj.to_map key ∪ Obj.to_map item = Obj.to_map data.
Proof.
  intros Hown. exists (ownSplit table data).1, (ownSplit table data).2.
  split; [by rewrite splitTableData_own, <-surjective_pairing|].
  rewrite ownSplit_key, ownSplit_item.
  split; [done|]. split; [done|]. split.
  - apply map_disjoint_filter_complement.
  - apply map_filter_union_complement.
Qed.

Lemma splitTableData_partition_of_own_witness :
  let data :=
    [("name", VStr "n"); ("S", VStr "id2"); ("P", VUndefined)] in
  forallb (ownOrAbsent data)
    (Obj.keys (Table.keySchema Samples.mainTable)) = true /\
  exists key item,
    Model.splitTableData Samples.mainTable data = Some (key, item) /\
    Obj.to_map key = filter (isKeyEntry Samples.mainTable) (Obj.to_map data) /\
    Obj.to_map item
    = filter (fun entry => ~ isKeyEntry Samples.mainTable entry)
        (Obj.to_map data) /\
    Obj.to_map key ##ₘ Obj.to_map item /\
    Obj.to_map key ∪ Obj.to_map item = Obj.to_map data.
Proof.
  cbn zeta. split; [reflexivity|].
  exact (splitTableData_partition_of_own Samples.mainTable
           [("name", VStr "n"); ("S", VStr "id2"); ("P", VUndefined)]
           eq_refl).
Defined.

End SplitTableData.

(** ** Request objects *)

Section ParamsFacts.
Import ExpressionAttributes.
Implicit Types (ea : ExpressionAttributes.t) (input params : Obj.t jsval).
Implicit Types (k : string).

Lemma nonempty_keys {V} (o : Obj.t V) :
  (0 <? length (Obj.keys o))%nat = negb (bool_decide (o = [])).
Proof. by destruct o. Qed.

Lemma addParams_names ea input :
  Obj.get (addParams ea input) "ExpressionAttributeNames" =
  if bool_decide (names ea = []) then Obj.get input "ExpressionAttributeNames"
  else Some (namesValue (names ea)).
Proof.
  unfold addParams. rewrite !nonempty_keys.
  destruct (bool_decide (values ea = [])); simpl;
    [|rewrite obj_get_set_ne by done];
    destruct (bool_decide (names ea = [])); simpl; try done;
    apply obj_get_set_eq.
Qed.

Lemma addParams_values ea input :
  Obj.get (addParams ea input) "ExpressionAttributeValues" =
  if bool_decide (values ea = []) then Obj.get input "ExpressionAttributeValues"
  else Some (VObj (values ea)).
Proof.
  unfold addParams. rewrite !nonempty_keys.
  destruct (bool_decide (values ea = [])); simpl;
    [|by rewrite obj_get_set_eq].
  destruct (bool_decide (names ea = [])); simpl; [done|].
  by rewrite obj_get_set_ne.
Qed.

Lemma addParams_frame ea input k :
  k <> "ExpressionAttributeNames" -> k <> "ExpressionAttributeValues" ->
  Obj.get (addParams ea input) k = Obj.get input k.
Proof.
  intros Hn Hv. unfold addParams.
  destruct (0 <? length (Obj.keys (values ea)))%nat;
    destruct (0 <? length (Obj.keys (names ea)))%nat;
    rewrite ?obj_get_set_ne by done; done.
Qed.

Lemma updateAddParam_frame item ea params k :
  k <> "UpdateExpression" ->
  Obj.get (Update.addParam item ea params).2 k = Obj.get params k.
Proof.
  intros Hk. unfold Update.addParam. destruct item as [item|]; [|done].
  destruct (Update.compileAll item (ea, Update.noBuffers)) as [ea' b].
  destruct (Update.buildExpression b); [|done]. simpl.
  by rewrite obj_get_set_ne.
Qed.

Lemma keyedParams_TableName {C : ConditionModule} tbl key
  (options : Table.Options C) :
  Obj.get (Table.keyedParams tbl key options) "TableName"
  = Some (VStr (Table.name tbl)).
Proof.
  unfold Table.keyedParams. rewrite obj_get_set_ne by done.
  apply obj_get_set_eq.
Qed.

Lemma keyedParams_Key {C : ConditionModule} tbl key
  (options : Table.Options C) :
  Obj.get (Table.keyedParams tbl key options) "Key" = Some (VObj key).
Proof. unfold Table.keyedParams. apply obj_get_set_eq. Qed.

Lemma plainConditions_frame : condition_frame plainConditions.
Proof.
  intros conds ea params k Hk. simpl.
  destruct conds as [[|c cs]|]; simpl; try done.
  by rewrite obj_get_set_ne.
Qed.

Lemma plainConditions_idle : condition_idle plainConditions.
Proof. by intros ea params. Qed.

(** What [putParams] builds, under the frame law of [Condition]. *)
Lemma putParams_fields (C : ConditionModule) tbl key item
  (options : Table.Options C) :
  condition_frame C ->
  let out := Table.putParams tbl key item options in
  Obj.get out "TableName" = Some (VStr (Table.name tbl)) /\
  Obj.get out "Item" =
    Some (VObj (Obj.spread (Obj.spread [] key) (default [] item))) /\
  Obj.get out "Key" = Obj.get (default [] (Table.params options)) "Key".
Proof.
  intros Hframe. cbn zeta. unfold Table.putParams.
  match goal with
  | |- context [addAndParam C ?c ?a ?p] =>
      pose proof (Hframe c a p) as Hf; destruct (addAndParam C c a p) as [a' p']
  end.
  simpl in Hf. rewrite !addParams_frame by done. rewrite !Hf by done.
  split; [|split].
  - rewrite obj_get_set_ne by done. apply obj_get_set_eq.
  - apply obj_get_set_eq.
  - rewrite !obj_get_set_ne by done. rewrite obj_get_spread.
    by destruct (Obj.get _ "Key").
Qed.

Lemma merged_item (key item : Obj.t jsval) :
  Obj.to_map (Obj.spread (Obj.spread [] key) item)
  = Obj.to_map item ∪ Obj.to_map key.
Proof.
  rewrite !obj_to_map_spread. unfold Obj.to_map at 3. simpl.
  by rewrite (right_id_L ∅ (∪)).
Qed.

Lemma putParams_plain (C : ConditionModule) tbl key item :
  condition_idle C ->
  Table.putParams (C := C) tbl key item Table.noOptions =
  [("TableName", VStr (Table.name tbl));
   ("Item", VObj (Obj.spread (Obj.spread [] key) (default [] item)))].
Proof.
  intros Hidle. unfold Table.putParams. simpl.
  destruct (Hidle ExpressionAttributes.new
              [("TableName", VStr (Table.name tbl));
               ("Item", VObj (Obj.spread (Obj.spread [] key)
                                (default [] item)))]) as [_ ->].
  done.
Qed.

End ParamsFacts.

(** ** Table: the claims *)

Section TableClaims.
Import ExpressionAttributes.

(** C4, as the code has it. The request object of a whole-record write
    holds [TableName] and an [Item] that is the key map merged with the
    item map, the entries of the item map winning; [putParams] writes no
    [Key] entry: one is present only when the caller's [options.params]
    brings it. *)
Theorem putParams_whole_record (C : ConditionModule) (tbl : Table.t)
  (key : Obj.t jsval) (item : option (Obj.t jsval))
  (options : Table.Options C) :
  condition_frame C ->
  let out := Table.putParams tbl key item options in
  Obj.get out "TableName" = Some (VStr (Table.name tbl)) /\
  (exists merged,
      Obj.get out "Item" = Some (VObj merged) /\
      Obj.to_map merged = Obj.to_map (default [] item) ∪ Obj.to_map key) /\
  Obj.get out "Key" = Obj.get (default [] (Table.params options)) "Key".
Proof.
  intros Hframe.
  destruct (putParams_fields C tbl key item options Hframe) as (Ht & Hi & Hk).
  cbn zeta in *. split; [done|]. split; [|done].
  eexists. split; [exact Hi|]. apply merged_item.
Qed.

Lemma putParams_whole_record_witness :
  condition_frame plainConditions /\
  Obj.get (Table.putParams (C := plainConditions) Samples.mainTable
             [("P", VStr "id1"); ("S", VStr "id2")]
             (Some [("name", VStr "name1")]) Table.noOptions) "Key"
  = None.
Proof.
  split; [exact plainConditions_frame|].
  exact (proj2 (proj2 (putParams_whole_record plainConditions
    Samples.mainTable [("P", VStr "id1"); ("S", VStr "id2")]
    (Some [("name", VStr "name1")]) Table.noOptions plainConditions_frame))).
Defined.

(** The whole-record write of the test suite: the request object has no
    [Key] entry, and its [Item] is not the item map alone. *)
Lemma putParams_Key_counterexample :
  let key := [("P", VStr "id1"); ("S", VStr "id2")] in
  let item := [("name", VStr "name1"); ("rev", VNum 1)] in
  let out := Table.putParams (C := plainConditions) Samples.mainTable key
               (Some item) Table.noOptions in
  out = [("TableName", VStr "MainTable");
         ("Item", VObj [("P", VStr "id1"); ("S", VStr "id2");
                        ("name", VStr "name1"); ("rev", VNum 1)])] /\
  Obj.get out "Key" = None /\
  Obj.get out "Item" <> Some (VObj item).
Proof. split; [reflexivity|]. split; [reflexivity|discriminate]. Qed.

(** C10. Whatever the options, and whatever [Condition] adds as long as it
    keeps to its own entry of the request object, [getParams],
    [deleteParams] and [updateParams] return [TableName] as the name of the
    table and [Key] as the key map given, and [putParams] returns
    [TableName] as the name of the table and [Item] as the key map merged
    with the item map. *)
Theorem identity_fields_kept (C : ConditionModule) (tbl : Table.t)
  (key : Obj.t jsval) (item : option (Obj.t jsval))
  (update : option Update.UpdateMapValue) (options : Table.Options C) :
  condition_frame C ->
  (Obj.get (Table.getParams tbl key options) "TableName"
     = Some (VStr (Table.name tbl)) /\
   Obj.get (Table.getParams tbl key options) "Key" = Some (VObj key)) /\
  (Obj.get (Table.deleteParams tbl key options) "TableName"
     = Some (VStr (Table.name tbl)) /\
   Obj.get (Table.deleteParams tbl key options) "Key" = Some (VObj key)) /\
  (Obj.get (Table.updateParams tbl key update options) "TableName"
     = Some (VStr (Table.name tbl)) /\
   Obj.get (Table.updateParams tbl key update options) "Key"
     = Some (VObj key)) /\
  (Obj.get (Table.putParams tbl key item options) "TableName"
     = Some (VStr (Table.name tbl)) /\
   exists merged,
     Obj.get (Table.putParams tbl key item options) "Item"
       = Some (VObj merged) /\
     Obj.to_map merged = Obj.to_map (default [] item) ∪ Obj.to_map key).
Proof.
  intros Hframe. split; [|split; [|split]].
  - unfold Table.getParams.
    by rewrite keyedParams_TableName, keyedParams_Key.
  - unfold Table.deleteParams.
    match goal with
    | |- context [addAndParam C ?c ?a ?p] =>
        pose proof (Hframe c a p) as Hf;
        destruct (addAndParam C c a p) as [a' p']
    end.
    simpl in Hf. rewrite !addParams_frame by done. rewrite !Hf by done.
    by rewrite keyedParams_TableName, keyedParams_Key.
  - unfold Table.updateParams.
    match goal with
    | |- context [Update.addParam ?i ?a ?p] =>
        pose proof (fun k => updateAddParam_frame i a p k) as Hu;
        destruct (Update.addParam i a p) as [a1 p1]
    end.
    match goal with
    | |- context [addAndParam C ?c ?a ?p] =>
        pose proof (Hframe c a p) as Hf;
        destruct (addAndParam C c a p) as [a' p']
    end.
    simpl in Hf, Hu. rewrite !addParams_frame by done.
    rewrite !Hf by done. rewrite !Hu by done.
    by rewrite keyedParams_TableName, keyedParams_Key.
  - destruct (putParams_fields C tbl key item options Hframe)
      as (Ht & Hi & _).
    cbn zeta in *. split; [done|]. eexists. split; [exact Hi|].
    apply merged_item.
Qed.

Lemma identity_fields_kept_witness :
  let options : Table.Options plainConditions :=
    Table.mkOptions (C := plainConditions) None
      (Some ["attribute_exists(P)"])
      (Some [("TableName", VStr "Other"); ("Key", VNull);
             ("ReturnValues", VStr "ALL_OLD")])
      None in
  condition_frame plainConditions /\
  Obj.get (Table.deleteParams Samples.mainTable [("P", VStr "id1")] options)
    "TableName" = Some (VStr "MainTable") /\
  Obj.get (Table.deleteParams Samples.mainTable [("P", VStr "id1")] options)
    "Key" = Some (VObj [("P", VStr "id1")]).
Proof.
  intros options. split; [exact plainConditions_frame|].
  exact (proj1 (proj2 (identity_fields_kept plainConditions
    Samples.mainTable [("P", VStr "id1")] None None options
    plainConditions_frame))).
Defined.

(** C7. [addParams] sets [ExpressionAttributeNames] to the names object
    when that object has an entry and leaves the property alone when it has
    none, and likewise [ExpressionAttributeValues] with the values object;
    no other property is touched.  Hence an update with nothing but a key,
    no option given and [Condition] idle without conditions, is the request
    object made of [TableName] and [Key] only. *)
Theorem empty_maps_omitted (C : ConditionModule)
  (ea : ExpressionAttributes.t) (input : Obj.t jsval)
  (tbl : Table.t) (key : Obj.t jsval) :
  condition_idle C ->
  (names ea <> [] ->
   Obj.get (addParams ea input) "ExpressionAttributeNames"
   = Some (namesValue (names ea))) /\
  (names ea = [] ->
   Obj.get (addParams ea input) "ExpressionAttributeNames"
   = Obj.get input "ExpressionAttributeNames") /\
  (values ea <> [] ->
   Obj.get (addParams ea input) "ExpressionAttributeValues"
   = Some (VObj (values ea))) /\
  (values ea = [] ->
   Obj.get (addParams ea input) "ExpressionAttributeValues"
   = Obj.get input "ExpressionAttributeValues") /\
  (forall k, k <> "ExpressionAttributeNames" ->
             k <> "ExpressionAttributeValues" ->
             Obj.get (addParams ea input) k = Obj.get input k) /\
  Table.updateParams (C := C) tbl key (Some []) Table.noOptions
  = [("TableName", VStr (Table.name tbl)); ("Key", VObj key)] /\
  Table.updateParams (C := C) tbl key None Table.noOptions
  = [("TableName", VStr (Table.name tbl)); ("Key", VObj key)].
Proof.
  intros Hidle.
  split; [|split; [|split; [|split; [|split; [|split]]]]].
  - intros Hne. rewrite addParams_names. by rewrite bool_decide_eq_false_2.
  - intros He. rewrite addParams_names. by rewrite bool_decide_eq_true_2.
  - intros Hne. rewrite addParams_values. by rewrite bool_decide_eq_false_2.
  - intros He. rewrite addParams_values. by rewrite bool_decide_eq_true_2.
  - intros k. apply addParams_frame.
  - unfold Table.updateParams. simpl.
    destruct (Hidle ExpressionAttributes.new
      (Table.keyedParams (C := C) tbl key Table.noOptions)) as [-> _].
    done.
  - unfold Table.updateParams. simpl.
    destruct (Hidle ExpressionAttributes.new
      (Table.keyedParams (C := C) tbl key Table.noOptions)) as [-> _].
    done.
Qed.

Lemma empty_maps_omitted_witness :
  condition_idle plainConditions /\
  Table.updateParams (C := plainConditions) Samples.mainTable
    [("P", VStr "id1"); ("S", VStr "id2")] (Some []) Table.noOptions
  = [("TableName", VStr "MainTable");
     ("Key", VObj [("P", VStr "id1"); ("S", VStr "id2")])].
Proof.
  split; [exact plainConditions_idle|].
  exact (proj1 (proj2 (proj2 (proj2 (proj2 (proj2
    (empty_maps_omitted plainConditions new [] Samples.mainTable
       [("P", VStr "id1"); ("S", VStr "id2")] plainConditions_idle))))))).
Defined.

End TableClaims.

(** ** The update compiler *)

Section UpdateFacts.
Import Update.
Implicit Types (d : Directive) (st : State) (c : Clause) (b : Buffers).
Implicit Types (item : UpdateMapValue).

Lemma arith_buffers op path src delta st c :
  length (buffer c (arith op path src delta st).2)
  = length (buffer c st.2) + occurrences c [SET].
Proof.
  unfold arith, occurrences. destruct st as [ea b].
  destruct (ExpressionAttributes.addPath path ea) as [p ea1].
  destruct src as [s|].
  - destruct (ExpressionAttributes.addPath s ea1) as [l ea2].
    destruct (ExpressionAttributes.addValue delta ea2) as [v ea3].
    destruct c; simpl; rewrite ?length_app; simpl; lia.
  - destruct (ExpressionAttributes.addValue delta ea1) as [v ea3].
    destruct c; simpl; rewrite ?length_app; simpl; lia.
Qed.

(** A directive appends one entry to the buffer of each of its clauses. *)
Lemma compile_buffers d : forall path st c,
  length (buffer c (compile path d st).2)
  = length (buffer c st.2) + occurrences c (clausesOf d).
Proof.
  unfold occurrences. revert d. fix IH 1. intros d path st c.
  destruct d as [v|src v|src v| |n|v|v|v|v|nested];
    try apply (arith_buffers _ _ _ _ _ c);
    try (destruct st as [ea b]; cbn [compile clausesOf];
         crunch_compile; destruct c; simpl; rewrite ?length_app; simpl; lia).
  cbn [compile clausesOf]. revert st.
  induction nested as [|[key d'] nested IHn]; intros st.
  - simpl. lia.
  - rewrite IHn, (IH d'), filter_app, length_app. lia.
Qed.

Lemma compileAll_buffers item st c :
  length (buffer c (compileAll item st).2)
  = length (buffer c st.2) + occurrences c (clausesOfAll item).
Proof.
  unfold compileAll, clausesOfAll, occurrences. revert st.
  induction item as [|[name d] item IH]; intros st; simpl; [lia|].
  rewrite IH, compile_buffers. unfold occurrences.
  rewrite filter_app, length_app. lia.
Qed.

Lemma compileAll_nonempty item st c :
  c ∈ clausesOfAll item -> buffer c (compileAll item st).2 <> [].
Proof.
  intros Hin Hnil. pose proof (compileAll_buffers item st c) as Hlen.
  rewrite Hnil in Hlen. unfold occurrences in Hlen. simpl in Hlen.
  assert (Hc : c ∈ filter (fun x => x = c) (clausesOfAll item))
    by (by apply list_elem_of_filter).
  destruct (filter _ (clausesOfAll item)); [by apply elem_of_nil in Hc|].
  simpl in Hlen. lia.
Qed.

Lemma clausesOfAll_perm item item' c :
  item' ≡ₚ item -> c ∈ clausesOfAll item -> c ∈ clausesOfAll item'.
Proof.
  intros Hperm Hin. unfold clausesOfAll in *.
  eapply elem_of_Permutation_proper; [|exact Hin].
  by apply Permutation_flat_map.
Qed.

Lemma buildExpression_all b :
  setList b <> [] -> removeList b <> [] ->
  addList b <> [] -> delList b <> [] ->
  buildExpression b =
  Some (("SET " +:+ JsString.join ", " (setList b)) +:+ " " +:+
        ("REMOVE " +:+ JsString.join ", " (removeList b)) +:+ " " +:+
        ("ADD " +:+ JsString.join ", " (addList b)) +:+ " " +:+
        ("DELETE " +:+ JsString.join ", " (delList b))).
Proof.
  unfold buildExpression, clause.
  destruct b as [[|s ss] [|r rs] [|a as_] [|x xs]]; simpl; try done.
Qed.

Lemma buildExpression_None b :
  buildExpression b = None <->
  setList b = [] /\ removeList b = [] /\ addList b = [] /\ delList b = [].
Proof.
  unfold buildExpression, clause.
  destruct b as [[|s ss] [|r rs] [|a as_] [|x xs]]; simpl;
    split; try done; intros (? & ? & ? & ?); done.
Qed.

(** C8. Clause ordering.  For an update record with a directive of each
    of the four kinds, and for every reordering of that record, the
    compiled expression is the [SET] clause, then the [REMOVE] clause, then
    the [ADD] clause, then the [DELETE] clause, each made of its keyword, a
    space and the comma-joined entries of its non-empty buffer, the clauses
    separated by a space; and no expression is built exactly when the four
    buffers are empty. *)
Theorem clause_order (item item' : UpdateMapValue)
  (ea : ExpressionAttributes.t) :
  (forall c, c ∈ clausesOfAll item) -> item' ≡ₚ item ->
  let b := (compileAll item' (ea, noBuffers)).2 in
  (setList b <> [] /\ removeList b <> [] /\
   addList b <> [] /\ delList b <> []) /\
  buildExpression b =
  Some (("SET " +:+ JsString.join ", " (setList b)) +:+ " " +:+
        ("REMOVE " +:+ JsString.join ", " (removeList b)) +:+ " " +:+
        ("ADD " +:+ JsString.join ", " (addList b)) +:+ " " +:+
        ("DELETE " +:+ JsString.join ", " (delList b))) /\
  (forall b', buildExpression b' = None <->
              setList b' = [] /\ removeList b' = [] /\
              addList b' = [] /\ delList b' = []).
Proof.
  intros Hall Hperm b.
  assert (Hne : forall c, buffer c b <> []).
  { intros c. apply compileAll_nonempty.
    eapply clausesOfAll_perm; [exact Hperm|apply Hall]. }
  pose proof (Hne SET) as H1. pose proof (Hne REMOVE) as H2.
  pose proof (Hne ADD) as H3. pose proof (Hne DELETE) as H4.
  simpl in H1, H2, H3, H4.
  split; [done|]. split; [by apply buildExpression_all|].
  apply buildExpression_None.
Qed.

End UpdateFacts.

Section UpdateReplay.
Import Update.

Lemma clause_order_witness :
  let item := [("interests", DRemoveFromSet (VArr [VStr "soccer"]));
               ("modified", DAddToSet (VArr [VNum 1585533302]));
               ("adult", DDelete);
               ("name", DSet (VStr "new name"))] in
  (item ≡ₚ reverse item) /\
  buildExpression (compileAll item (ExpressionAttributes.new, noBuffers)).2
  = Some "SET #n3 = :v2 REMOVE #n2 ADD #n1 :v1 DELETE #n0 :v0".
Proof.
  intros item.
  assert (Hperm : item ≡ₚ reverse item)
    by (symmetry; apply reverse_Permutation).
  assert (Hall : forall c, c ∈ clausesOfAll (reverse item)).
  { intros c. destruct c; vm_compute; repeat constructor. }
  split; [exact Hperm|].
  exact (proj1 (proj2 (clause_order (reverse item) item
                         ExpressionAttributes.new Hall Hperm))).
Defined.

(** The partial update of the test suite ([Model.update with all fields]),
    compiled from its directives. *)
Example update_replay :
  (addParam
     (Some [("G0S", DSet (VStr "kirkland.wa.usa"));
            ("name", DSet (VStr "new name"));
            ("rev", DIncrement None (VNum 1));
            ("created", DSet (VNum 1585553302))])
     ExpressionAttributes.new []).2
  = [("UpdateExpression",
      VStr "SET #n0 = :v0, #n1 = :v1, #n2 = #n2 + :v2, #n3 = :v3")].
Proof. reflexivity. Qed.

End UpdateReplay.

(** ** The split-key field *)

Section SplitFieldFacts.
Import SplitField.
Implicit Types (sep : ascii) (tokens : list string).

Lemma join_removelast_last sep tokens :
  2 <= length tokens ->
  JsString.join (String sep "") (removelast tokens)
    +:+ String sep "" +:+ List.last tokens ""
  = JsString.join (String sep "") tokens.
Proof.
  induction tokens as [|x [|y [|z l]] IH]; simpl; try lia; [done|].
  intros _. simpl in IH. rewrite <-IH by lia.
  by rewrite !str_app_assoc.
Qed.

(** C9. Split-key round trip.  A string with one token is written to the
    first attribute only; with two tokens or more, all tokens but the last,
    joined again, go to the first attribute and the last token to the
    second; in both cases extracting from the attributes written gives the
    string back. *)
Theorem split_key_round_trip (attr1 attr2 : string) (sep : ascii)
  (value : string) :
  String.eqb attr1 attr2 = false ->
  let tokens := JsString.split sep value in
  (length tokens = 1 ->
   project attr1 attr2 sep value [] = [(attr1, VStr value)]) /\
  (2 <= length tokens ->
   project attr1 attr2 sep value [] =
   [(attr1, VStr (JsString.join (String sep "") (removelast tokens)));
    (attr2, VStr (List.last tokens ""))]) /\
  extract [attr1; attr2] sep (project attr1 attr2 sep value []) = Some value.
Proof.
  intros Hne tokens. pose proof (join_split sep value) as Hjoin.
  pose proof (split_ne_nil sep value) as Hnil.
  unfold project, extract. fold tokens in Hjoin, Hnil |- *.
  destruct tokens as [|t1 [|t2 l]] eqn:Htok; [done| |].
  - simpl in Hjoin. subst t1. split; [done|]. split; [simpl; lia|].
    simpl. by rewrite eqb_refl_true, Hne.
  - split; [simpl; lia|]. split.
    + intros _. simpl. by rewrite Hne.
    + cbn [Obj.set]. rewrite Hne.
      cbn [omap list_omap Obj.get stringOf]. rewrite !eqb_refl_true, Hne.
      cbn [stringOf JsString.join]. f_equal. rewrite <-Hjoin.
      apply (join_removelast_last sep (t1 :: t2 :: l)). simpl. lia.
Qed.

Lemma split_key_round_trip_witness :
  String.eqb "P" "S" = false /\
  project "P" "S" "." "id1.id2.id3.id4" []
  = [("P", VStr "id1.id2.id3"); ("S", VStr "id4")] /\
  extract ["P"; "S"] "." (project "P" "S" "." "id1.id2.id3.id4" [])
  = Some "id1.id2.id3.id4".
Proof.
  split; [reflexivity|].
  pose proof (split_key_round_trip "P" "S" "." "id1.id2.id3.id4" eq_refl)
    as (_ & H2 & H3).
  split; [apply H2; simpl; lia|exact H3].
Defined.

End SplitFieldFacts.

(** ** Scenarios of the test suite *)

Section Scenarios.

(** [Model.getParams with multiple id]: the split key, then [getParams]. *)
Example getParams_multiple_id :
  let tableData := SplitField.project "P" "S" "." "id1.id2.id3.id4" [] in
  (fun split => Table.getParams (C := plainConditions) Samples.mainTable
                  split.1 Table.noOptions)
    <$> Model.splitTableData Samples.mainTable tableData
  = Some [("TableName", VStr "MainTable");
          ("Key", VObj [("P", VStr "id1.id2.id3"); ("S", VStr "id4")])].
Proof. reflexivity. Qed.

(** [Model.getParams with single id]. *)
Example getParams_single_id :
  let tableData := SplitField.project "P" "S" "." "id1" [] in
  (fun split => Table.getParams (C := plainConditions) Samples.mainTable
                  split.1 Table.noOptions)
    <$> Model.splitTableData Samples.mainTable tableData
  = Some [("TableName", VStr "MainTable");
          ("Key", VObj [("P", VStr "id1")])].
Proof. reflexivity. Qed.

(** [Model.deleteParams]. *)
Example deleteParams_replay :
  Table.deleteParams (C := plainConditions) Samples.mainTable
    [("P", VStr "id1"); ("S", VStr "id2")] Table.noOptions
  = [("TableName", VStr "MainTable");
     ("Key", VObj [("P", VStr "id1"); ("S", VStr "id2")])].
Proof. reflexivity. Qed.

(** [Model.putParams with min fields], from the attributes the fields
    produce. *)
Example putParams_min_fields :
  Model.putParamsOf (C := plainConditions) Samples.mainTable
    [("P", VStr "id1"); ("S", VStr "id2"); ("name", VStr "name1");
     ("rev", VNum 1); ("adult", VBool true); ("nickname", VStr "none")]
    Table.noOptions
  = Some [("TableName", VStr "MainTable");
          ("Item", VObj [("P", VStr "id1"); ("S", VStr "id2");
                         ("name", VStr "name1"); ("rev", VNum 1);
                         ("adult", VBool true);
                         ("nickname", VStr "none")])].
Proof. reflexivity. Qed.

(** The split is by name: a key attribute is taken out wherever it stands,
    an undefined one stays with the item. *)
Example splitTableData_by_name :
  Model.splitTableData Samples.mainTable
    [("name", VStr "n"); ("S", VStr "id2"); ("P", VUndefined)]
  = Some ([("S", VStr "id2")], [("name", VStr "n"); ("P", VUndefined)]).
Proof. reflexivity. Qed.

(** A dotted path with an index, and the same name at two depths. *)
Example addPath_replay :
  let '(out, ea) :=
    ExpressionAttributes.addPath "groups.list[0].groups"
      ExpressionAttributes.new in
  out = "#n0.#n1[0].#n0" /\
  ExpressionAttributes.getPaths ea = [("#n0", "groups"); ("#n1", "list")].
Proof. split; reflexivity. Qed.

End Scenarios.

(** * Further properties *)

(** ** ExpressionAttributes: one name, one path *)

Section NameCalls.
Import ExpressionAttributes AttributeName.
Implicit Types (ea : ExpressionAttributes.t) (ns : Obj.t string).
Implicit Types (name key a : string) (ks segs : list string).

Lemma obj_set_set_same {V} (o : Obj.t V) k (v : V) :
  Obj.set (Obj.set o k v) k v = Obj.set o k v.
Proof.
  induction o as [|[k' v'] o IH]; simpl.
  - by rewrite eqb_refl_true.
  - destruct (String.eqb k' k) eqn:E; simpl; rewrite E; [done|].
    by rewrite IH.
Qed.

Lemma obj_keys_set {V} (o : Obj.t V) k (v : V) key :
  key ∈ Obj.keys (Obj.set o k v) <-> key = k \/ key ∈ Obj.keys o.
Proof.
  unfold Obj.keys. induction o as [|[k' v'] o IH]; simpl.
  - rewrite list_elem_of_singleton. split; [by left|].
    by intros [?|?%elem_of_nil].
  - destruct (String.eqb_spec k' k) as [->|Hne]; simpl.
    + rewrite elem_of_cons. tauto.
    + rewrite !elem_of_cons, IH. tauto.
Qed.

Lemma forInNames_Some ns ks name a :
  forInNames ns ks name = Some a -> a ∈ ks /\ Obj.get ns a = Some name.
Proof.
  induction ks as [|key ks IH]; simpl; [done|].
  destruct (Obj.get ns key) as [v|] eqn:Hget.
  - destruct (String.eqb_spec v name) as [->|Hne].
    + intros H. injection H as <-. split; [by left|done].
    + intros [? ?]%IH. split; [by right|done].
  - intros [? ?]%IH. split; [by right|done].
Qed.

Lemma forInNames_None ns ks name :
  forInNames ns ks name = None <->
  forall key, key ∈ ks -> Obj.get ns key <> Some name.
Proof.
  induction ks as [|key ks IH]; simpl.
  - split; [|done]. by intros _ key ?%elem_of_nil.
  - destruct (Obj.get ns key) as [v|] eqn:Hget.
    + destruct (String.eqb_spec v name) as [->|Hne].
      * split; [done|]. intros H. exfalso. apply (H key); [by left|done].
      * rewrite IH. split.
        -- intros H key' [->|?]%elem_of_cons; [congruence|by apply H].
        -- intros H key' ?. apply H. by right.
    + rewrite IH. split.
      * intros H key' [->|?]%elem_of_cons; [congruence|by apply H].
      * intros H key' ?. apply H. by right.
Qed.

(** After [names[k] = name] on an object where no alias stood for [name],
    the loop of [addName] finds [k]. *)
Lemma forInNames_after_set ns k name :
  forInNames ns (Obj.keys ns) name = None ->
  forInNames (Obj.set ns k name) (Obj.keys (Obj.set ns k name)) name
  = Some k.
Proof.
  intros Hnone.
  destruct (forInNames (Obj.set ns k name) _ name) as [a|] eqn:Hfind.
  - apply forInNames_Some in Hfind as [Hin Hget].
    destruct (decide (a = k)) as [->|Hne]; [done|]. exfalso.
    rewrite obj_get_set_ne in Hget by done.
    apply obj_keys_set in Hin as [?|Hin]; [done|].
    by apply (proj1 (forInNames_None _ _ _) Hnone a).
  - exfalso. apply (proj1 (forInNames_None _ _ _) Hfind k).
    + apply obj_keys_set. by left.
    + apply obj_get_set_eq.
Qed.

(** X1. Asking twice in a row for the alias of a name gives the same alias
    and changes nothing the second time, whatever the predicates and
    whatever the instance holds. *)
Theorem addName_twice (ea : ExpressionAttributes.t) (name : string) :
  addName name (addName name ea).2 = addName name ea.
Proof.
  unfold addName at 2 3. destruct (isReservedName ea name) eqn:Hres.
  - cbn [snd]. unfold addName. cbn [isReservedName withNames names nextName].
    rewrite Hres. by rewrite obj_set_set_same.
  - destruct (isValidName ea name) eqn:Hval; cbn [negb].
    + cbn [snd]. unfold addName. by rewrite Hres, Hval.
    + destruct (forInNames (names ea) (Obj.keys (names ea)) name)
        as [key|] eqn:Hfind; cbn [snd].
      * unfold addName. by rewrite Hres, Hval, Hfind.
      * unfold addName.
        cbn [isReservedName isValidName withNames names nextName].
        rewrite Hres, Hval. cbn [negb].
        by rewrite (forInNames_after_set _ _ _ Hfind).
Qed.

Lemma segment_parts seg : segmentName seg +:+ segmentSuffix seg = seg.
Proof.
  destruct (JsString.endsWith seg "]") eqn:Hend.
  - destruct (JsString.contains "[" seg) eqn:Hopen.
    + assert (Hb : PathSpec.bracketed seg = true).
      { unfold PathSpec.bracketed. by rewrite Hopen, orb_true_r. }
      destruct (bracketed_segment seg Hend Hb) as [-> ->].
      apply breakAt_app.
    + by destruct (unopened_segment seg Hend Hopen) as [-> ->].
  - unfold segmentName, segmentSuffix. rewrite Hend. apply str_app_nil_r.
Qed.

Lemma addName_valid name ea :
  isReservedName ea name = false -> isValidName ea name = true ->
  addName name ea = (name, ea).
Proof. unfold addName. by intros -> ->. Qed.

Lemma addSegments_unchanged segs prev ea :
  Forall (fun seg => isReservedName ea (segmentName seg) = false /\
                     isValidName ea (segmentName seg) = true) segs ->
  fold_left addSegment segs (prev, ea) = (prev ++ segs, ea).
Proof.
  revert prev. induction segs as [|seg segs IH]; intros prev Hall.
  - by rewrite app_nil_r.
  - apply Forall_cons in Hall as [[Hres Hval] Hall]. cbn [fold_left].
    rewrite addSegment_eq, (addName_valid _ _ Hres Hval). cbn [fst snd].
    rewrite segment_parts, IH by done. by rewrite <-(assoc_L (++)).
Qed.

(** X2. A path whose names are all valid and not reserved is returned as it
    is and nothing is registered: with [treatNameAsPath] on, the names are
    those of the segments, brackets left out; with it off, the path
    itself. *)
Theorem addPath_valid_unchanged (ea : ExpressionAttributes.t)
  (path : string) :
  Forall (fun n => isReservedName ea n = false /\ isValidName ea n = true)
    (pathNames (treatNameAsPath ea) path) ->
  addPath path ea = (path, ea).
Proof.
  unfold pathNames, addPath. destruct (treatNameAsPath ea).
  - intros Hall. rewrite Forall_fmap in Hall.
    rewrite (addSegments_unchanged _ [] ea Hall). simpl.
    by rewrite (join_split "." path).
  - intros [[Hres Hval] _]%Forall_cons_1. by apply addName_valid.
Qed.

Lemma addPath_valid_unchanged_witness :
  Forall (fun n =>
            isReservedName Samples.reservedSize n = false /\
            isValidName Samples.reservedSize n = true)
    (pathNames (treatNameAsPath Samples.reservedSize) "id[3].id") /\
  addPath "id[3].id" Samples.reservedSize
  = ("id[3].id", Samples.reservedSize).
Proof.
  assert (H : Forall (fun n =>
            isReservedName Samples.reservedSize n = false /\
            isValidName Samples.reservedSize n = true)
    (pathNames (treatNameAsPath Samples.reservedSize) "id[3].id")).
  { vm_compute. repeat constructor. }
  split; [exact H|].
  exact (addPath_valid_unchanged Samples.reservedSize "id[3].id" H).
Defined.

(** X3. For a name with no dot that does not end with a closing bracket,
    [addPath] is [addName], whether [treatNameAsPath] is on or off. *)
Theorem addPath_plain_name (ea : ExpressionAttributes.t) (name : string) :
  JsString.contains "." name = false ->
  JsString.endsWith name "]" = false ->
  addPath name ea = addName name ea.
Proof.
  intros Hdot Hend. unfold addPath. destruct (treatNameAsPath ea); [|done].
  rewrite (split_no_sep "." name Hdot). cbn [fold_left].
  unfold addSegment. rewrite Hend. by destruct (addName name ea).
Qed.

Lemma addPath_plain_name_witness :
  (JsString.contains "." "total[" = false /\
   JsString.endsWith "total[" "]" = false) /\
  addPath "total[" new = addName "total[" new.
Proof.
  split; [split; reflexivity|].
  exact (addPath_plain_name new "total[" eq_refl eq_refl).
Defined.

Lemma allLetterOrDigit_free c s :
  allLetterOrDigit s = true -> isLetterOrDigit c = false ->
  JsString.contains c s = false.
Proof.
  intros Hall Hc. induction s as [|a s IH]; [done|]. simpl in *.
  apply andb_prop in Hall as [Ha Hs]. rewrite (IH Hs), orb_false_r.
  destruct (Ascii.eqb_spec a c) as [->|]; [congruence|done].
Qed.

Lemma valid_name_free c name :
  isValidAttributeName name = true -> isLetterOrDigit c = false ->
  JsString.contains c name = false.
Proof.
  destruct name as [|a s]; [done|]. simpl.
  intros [Ha Hs]%andb_prop Hc. rewrite (allLetterOrDigit_free c s Hs Hc).
  rewrite orb_false_r. destruct (Ascii.eqb_spec a c) as [->|]; [|done].
  unfold isLetterOrDigit in Hc. by rewrite Ha in Hc.
Qed.

Lemma endsWith_contains s c :
  JsString.endsWith s c = true -> JsString.contains c s = true.
Proof.
  induction s as [|a [|b s] IH]; [done| |].
  - simpl. intros ->. done.
  - intros H. change (JsString.endsWith (String b s) c = true) in H.
    change (Ascii.eqb a c || JsString.contains c (String b s) = true).
    rewrite (IH H). apply orb_true_r.
Qed.

Lemma valid_name_segment name :
  isValidAttributeName name = true ->
  JsString.contains "." name = false /\ segmentName name = name.
Proof.
  intros Hv. split; [by apply valid_name_free|].
  unfold segmentName.
  destruct (JsString.endsWith name "]") eqn:Hend; [|done].
  apply endsWith_contains in Hend.
  by rewrite (valid_name_free "]" name Hv) in Hend.
Qed.

(** X4. [isValidAttributeName] accepts no empty name and no name holding a
    dot or a bracket; on an instance that uses it as its valid-name
    predicate and splits paths, a dotted path of accepted names none of
    which is reserved is returned as it is, nothing being registered. *)
Theorem addPath_identifiers (ea : ExpressionAttributes.t)
  (segs : list string) :
  (forall n, isValidName ea n = isValidAttributeName n) ->
  treatNameAsPath ea = true ->
  segs <> [] ->
  Forall (fun seg => isValidAttributeName seg = true /\
                     isReservedName ea seg = false) segs ->
  isValidAttributeName "" = false /\
  Forall (fun seg => JsString.contains "." seg = false /\
                     JsString.contains "[" seg = false /\
                     JsString.contains "]" seg = false) segs /\
  addPath (JsString.join "." segs) ea = (JsString.join "." segs, ea).
Proof.
  intros Hvalid Hflag Hne Hall. split; [done|]. split.
  - eapply Forall_impl; [exact Hall|]. intros seg [Hv _].
    repeat split; by apply valid_name_free.
  - unfold addPath. rewrite Hflag.
    rewrite (split_join "." segs Hne).
    + rewrite (addSegments_unchanged segs [] ea); [done|].
      eapply Forall_impl; [exact Hall|]. intros seg [Hv Hr].
      destruct (valid_name_segment seg Hv) as [_ ->].
      by rewrite Hvalid.
    + eapply Forall_impl; [exact Hall|]. intros seg [Hv _].
      by apply valid_name_free.
Qed.

End NameCalls.

(** ** ExpressionAttributes: names and values side by side *)

Section NamesAndValues.
Import ExpressionAttributes Invariant Names Evolution Requested.
Implicit Types (ea : ExpressionAttributes.t) (rs : list Request).
Implicit Types (name : string) (segs : list string).

Lemma addName_withValues name ea vs k :
  addName name (withValues ea vs k)
  = ((addName name ea).1, withValues (addName name ea).2 vs k).
Proof.
  unfold addName. cbn [isReservedName isValidName names nextName withValues].
  destruct (isReservedName ea name); [done|].
  destruct (negb (isValidName ea name)); [|done].
  by destruct (forInNames _ _ _).
Qed.

Lemma addSegments_withValues segs prev ea vs k :
  fold_left addSegment segs (prev, withValues ea vs k)
  = ((fold_left addSegment segs (prev, ea)).1,
     withValues (fold_left addSegment segs (prev, ea)).2 vs k).
Proof.
  revert prev ea. induction segs as [|seg segs IH]; intros prev ea; [done|].
  cbn [fold_left]. rewrite !addSegment_eq, addName_withValues.
  cbn [fst snd]. apply IH.
Qed.

Lemma addPath_withValues path ea vs k :
  addPath path (withValues ea vs k)
  = ((addPath path ea).1, withValues (addPath path ea).2 vs k).
Proof.
  unfold addPath. cbn [treatNameAsPath withValues].
  destruct (treatNameAsPath ea); [|apply addName_withValues].
  rewrite addSegments_withValues.
  by destruct (fold_left addSegment _ ([], ea)).
Qed.

(** X5. A path and a value can be registered in either order: the alias of
    the path, the alias of the value and the instance left behind are the
    same. *)
Theorem addPath_addValue_commute (ea : ExpressionAttributes.t)
  (path : string) (value : jsval) :
  let pathFirst := addPath path ea in
  let thenValue := addValue value pathFirst.2 in
  let valueFirst := addValue value ea in
  let thenPath := addPath path valueFirst.2 in
  pathFirst.1 = thenPath.1 /\
  thenValue.1 = valueFirst.1 /\
  thenValue.2 = thenPath.2.
Proof.
  cbn zeta. unfold addValue. cbn [fst snd].
  rewrite addPath_withValues. cbn [fst snd].
  destruct (addPath_values path ea) as [Hv Hn]. by rewrite Hv, Hn.
Qed.

(** The instance a sequence of calls leaves keeps the settings. *)
Lemma addName_settings name ea :
  isReservedName (addName name ea).2 = isReservedName ea /\
  isValidName (addName name ea).2 = isValidName ea /\
  treatNameAsPath (addName name ea).2 = treatNameAsPath ea.
Proof.
  unfold addName. destruct (isReservedName ea name); [done|].
  destruct (negb (isValidName ea name)); [|done].
  by destruct (forInNames _ _ _).
Qed.

Lemma keepsAliases_refl ea : keepsAliases ea ea.
Proof. by repeat split. Qed.

Lemma keepsAliases_trans ea ea1 ea2 :
  keepsAliases ea ea1 -> keepsAliases ea1 ea2 -> keepsAliases ea ea2.
Proof.
  intros (R1 & V1 & F1 & H1) (R2 & V2 & F2 & H2).
  split; [congruence|]. split; [congruence|]. split; [congruence|].
  intros k v Hk. by apply H2, H1.
Qed.

Lemma alias_of_reserved (r : string) (i : nat) :
  "#" +:+ r = "#n" +:+ pretty i -> r = "n" +:+ pretty i.
Proof. intros H. by apply (inj (String.app "#")) in H. Qed.

(** One [addName] call on an instance whose reserved names stand apart
    from the numbered aliases. *)
Lemma addName_keepsAliases name ea :
  reservedApart ea -> aliasesSound ea ->
  aliasesSound (addName name ea).2 /\ keepsAliases ea (addName name ea).2.
Proof.
  intros Hapart Hsound. unfold addName.
  destruct (isReservedName ea name) eqn:Hres; cbn [snd].
  - split.
    + intros k v. cbn [names nextName isReservedName withNames].
      destruct (decide (k = "#" +:+ name)) as [->|Hne].
      * rewrite obj_get_set_eq. intros [= <-]. by right.
      * rewrite obj_get_set_ne by done. apply Hsound.
    + split; [done|]. split; [done|]. split; [done|].
      intros k v Hk. cbn [names withNames].
      destruct (decide (k = "#" +:+ name)) as [->|Hne].
      * rewrite obj_get_set_eq. f_equal.
        destruct (Hsound _ _ Hk) as [(i & _ & Hi)|[Hv _]].
        -- exfalso. by apply (Hapart name i Hres), alias_of_reserved.
        -- by apply (inj (String.app "#")) in Hv.
      * by rewrite obj_get_set_ne.
  - destruct (negb (isValidName ea name));
      [|split; [done|apply keepsAliases_refl]].
    destruct (forInNames _ _ _); cbn [snd];
      [split; [done|apply keepsAliases_refl]|].
    assert (Hfresh : Obj.get (names ea) ("#n" +:+ pretty (nextName ea))
                     = None).
    { destruct (Obj.get (names ea) _) as [v|] eqn:Hk; [|done]. exfalso.
      destruct (Hsound _ _ Hk) as [(i & Hlt & Hi)|[Hv Hr]].
      - apply nameAlias_inj in Hi. lia.
      - symmetry in Hv. apply alias_of_reserved in Hv.
        by apply (Hapart v (nextName ea) Hr). }
    split.
    + intros k v. cbn [names nextName isReservedName withNames].
      destruct (decide (k = "#n" +:+ pretty (nextName ea))) as [->|Hne].
      * intros _. left. exists (nextName ea). split; [lia|done].
      * rewrite obj_get_set_ne by done. intros Hk.
        destruct (Hsound _ _ Hk) as [(i & Hlt & Hi)|?]; [|by right].
        left. exists i. split; [lia|done].
    + split; [done|]. split; [done|]. split; [done|].
      intros k v Hk. cbn [names withNames].
      rewrite obj_get_set_ne; [done|]. intros <-. congruence.
Qed.

Lemma reservedApart_kept ea ea' :
  isReservedName ea' = isReservedName ea -> reservedApart ea ->
  reservedApart ea'.
Proof. intros Hr Ha r i. rewrite Hr. apply Ha. Qed.

Lemma addSegments_keepsAliases segs prev ea :
  reservedApart ea -> aliasesSound ea ->
  aliasesSound (fold_left addSegment segs (prev, ea)).2 /\
  keepsAliases ea (fold_left addSegment segs (prev, ea)).2.
Proof.
  revert prev ea. induction segs as [|seg segs IH]; intros prev ea Ha Hs.
  - split; [done|apply keepsAliases_refl].
  - cbn [fold_left]. rewrite addSegment_eq.
    destruct (addName_keepsAliases (segmentName seg) ea Ha Hs) as [Hs1 Hk1].
    assert (Ha1 : reservedApart (addName (segmentName seg) ea).2)
      by (eapply reservedApart_kept; [apply Hk1|done]).
    destruct (IH (prev ++ [(addName (segmentName seg) ea).1
                           +:+ segmentSuffix seg]) _ Ha1 Hs1) as [Hs2 Hk2].
    split; [done|]. by eapply keepsAliases_trans.
Qed.

Lemma request_keepsAliases r ea :
  reservedApart ea -> aliasesSound ea ->
  aliasesSound (request r ea).2 /\ keepsAliases ea (request r ea).2.
Proof.
  intros Ha Hs. destruct r as [p|v]; simpl.
  - unfold addPath. destruct (treatNameAsPath ea).
    + pose proof (addSegments_keepsAliases (JsString.split "." p) [] ea
                    Ha Hs) as H.
      by destruct (fold_left addSegment _ _).
    + by apply addName_keepsAliases.
  - split; [exact Hs|]. by repeat split.
Qed.

Lemma requests_keepsAliases rs ea :
  reservedApart ea -> aliasesSound ea ->
  aliasesSound (requests rs ea).2 /\ keepsAliases ea (requests rs ea).2.
Proof.
  revert ea. induction rs as [|r rs IH]; intros ea Ha Hs; simpl.
  - split; [done|apply keepsAliases_refl].
  - destruct (request_keepsAliases r ea Ha Hs) as [Hs1 Hk1].
    destruct (request r ea) as [a ea1]. simpl in *.
    assert (Ha1 : reservedApart ea1)
      by (eapply reservedApart_kept; [apply Hk1|done]).
    destruct (IH ea1 Ha1 Hs1) as [Hs2 Hk2].
    destruct (requests rs ea1) as [outs ea2]. simpl in *.
    split; [done|]. by eapply keepsAliases_trans.
Qed.

(** X6. Whatever the predicates, as long as no reserved name is [n]
    followed by a number: from an instance with no name registered, an
    alias that stands for a name after some calls stands for the same name
    after any further calls. *)
Theorem aliases_never_rebound (ea0 : ExpressionAttributes.t)
  (rs1 rs2 : list Request) (k v : string) :
  reservedApart ea0 -> names ea0 = [] ->
  Obj.get (getPaths (requests rs1 ea0).2) k = Some v ->
  Obj.get (getPaths (requests (rs1 ++ rs2) ea0).2) k = Some v.
Proof.
  intros Ha Hn Hk. rewrite requests_app. cbn [snd].
  assert (Hs : aliasesSound ea0) by (intros k' v'; by rewrite Hn).
  destruct (requests_keepsAliases rs1 ea0 Ha Hs) as [Hs1 Hk1].
  assert (Ha1 : reservedApart (requests rs1 ea0).2)
    by (eapply reservedApart_kept; [apply Hk1|done]).
  destruct (requests_keepsAliases rs2 _ Ha1 Hs1) as [_ Hk2].
  by apply Hk2.
Qed.

End NamesAndValues.

(** ** ExpressionAttributes: the order of the numbering *)

Section Numbering.
Import ExpressionAttributes Invariant Names Evolution Requested.
Implicit Types (ea : ExpressionAttributes.t) (rs : list Request).
Implicit Types (name : string) (segs : list string).

Lemma zip_numbered {A B} (f : nat -> A) (l : list B) (j : nat) :
  zip (f <$> seq j (length l)) l = imap (fun i x => (f (j + i), x)) l.
Proof.
  revert j. induction l as [|x l IH]; intros j; [done|].
  simpl. rewrite Nat.add_0_r. f_equal. rewrite IH.
  apply imap_ext. intros i y _. simpl. do 2 f_equal. lia.
Qed.

Lemma numbered_object {B} (f : nat -> string) (o : Obj.t B) :
  Obj.keys o = f <$> seq 0 (length o.*2) ->
  o = imap (fun i x => (f i, x)) o.*2.
Proof.
  intros Hk. rewrite <-(zip_fst_snd o) at 1. unfold Obj.keys in Hk.
  rewrite Hk. apply (zip_numbered f o.*2 0).
Qed.

Lemma addName_default_names name ea :
  namesInv ea -> defaultPredicates ea ->
  (names (addName name ea).2).*2 = addDistinct (names ea).*2 name.
Proof.
  intros Hinv Hdef. pose proof (namesInv_NoDup_keys _ Hinv) as Hnd.
  destruct Hdef as [Hres Hval]. unfold addName, addDistinct.
  rewrite Hres, Hval. simpl. rewrite forInNames_firstAlias by done.
  destruct (firstAlias (names ea) name) as [a|] eqn:Hfirst; simpl.
  - apply firstAlias_Some in Hfirst.
    apply (list_elem_of_fmap_2 snd) in Hfirst. by rewrite decide_True.
  - apply firstAlias_None in Hfirst. rewrite decide_False by done.
    destruct Hinv as [Hkeys _].
    assert (Hfresh : nameAlias (nextName ea) ∉ Obj.keys (names ea)).
    { rewrite Hkeys. intros (j & Hj%nameAlias_inj & Hin)%list_elem_of_fmap.
      apply elem_of_seq in Hin. lia. }
    fold (nameAlias (nextName ea)). rewrite obj_set_fresh by done.
    by rewrite fmap_app.
Qed.

Lemma addSegments_names segs prev ea :
  namesInv ea -> defaultPredicates ea ->
  (names (fold_left addSegment segs (prev, ea)).2).*2
  = fold_left addDistinct (segmentName <$> segs) (names ea).*2.
Proof.
  revert prev ea. induction segs as [|seg segs IH]; intros prev ea Hinv Hdef;
    [done|].
  cbn [fold_left]. rewrite addSegment_eq, fmap_cons. cbn [fold_left].
  destruct (addName_grows (segmentName seg) ea Hinv Hdef) as [Hg _].
  rewrite IH; [|apply Hg..]. by rewrite addName_default_names.
Qed.

Lemma request_names r ea :
  namesInv ea -> defaultPredicates ea ->
  (names (request r ea).2).*2
  = fold_left addDistinct (requestNames (treatNameAsPath ea) r)
      (names ea).*2.
Proof.
  intros Hinv Hdef. destruct r as [p|v]; simpl; [|done].
  unfold addPath, pathNames. destruct (treatNameAsPath ea).
  - pose proof (addSegments_names (JsString.split "." p) [] ea Hinv Hdef)
      as H.
    by destruct (fold_left addSegment _ _).
  - simpl. by apply addName_default_names.
Qed.

Lemma requests_names rs ea :
  namesInv ea -> defaultPredicates ea ->
  (names (requests rs ea).2).*2
  = fold_left addDistinct (requestedNames (treatNameAsPath ea) rs)
      (names ea).*2.
Proof.
  revert ea. induction rs as [|r rs IH]; intros ea Hinv Hdef; [done|].
  unfold requestedNames. simpl. rewrite fold_left_app.
  pose proof (request_names r ea Hinv Hdef) as Hr.
  destruct (request_grows r ea Hinv Hdef) as [(Hi1 & Hd1 & Hf1 & _) _].
  destruct (request r ea) as [a ea1]. simpl in *.
  pose proof (IH ea1 Hi1 Hd1) as Hrs.
  destruct (requests rs ea1) as [outs ea2]. simpl in *.
  by rewrite Hrs, Hr, Hf1.
Qed.

(** X7. On an instance with the default predicates and nothing registered,
    the exported names object lists the raw names asked for, each once, in
    the order they were first asked for, under the aliases [#n0], [#n1],
    ... in that order; the counter is the number of these names. *)
Theorem names_in_request_order (ea0 : ExpressionAttributes.t)
  (rs : list Request) :
  defaultPredicates ea0 -> names ea0 = [] -> nextName ea0 = 0 ->
  let order :=
    firstOccurrences (requestedNames (treatNameAsPath ea0) rs) in
  getPaths (requests rs ea0).2
  = imap (fun i n => ("#n" +:+ pretty i, n)) order /\
  nextName (requests rs ea0).2 = length order.
Proof.
  intros Hdef Hn Hk order.
  pose proof (fresh_namesInv ea0 Hn Hk) as Hinv.
  pose proof (requests_names rs ea0 Hinv Hdef) as Hvals.
  rewrite Hn in Hvals. simpl in Hvals. fold (firstOccurrences
    (requestedNames (treatNameAsPath ea0) rs)) in Hvals. fold order in Hvals.
  destruct (requests_grows rs ea0 Hinv Hdef) as [([Hkeys _] & _) _].
  assert (Hlen : nextName (requests rs ea0).2 = length order).
  { apply (f_equal length) in Hkeys. unfold Obj.keys in Hkeys.
    rewrite !length_fmap, length_seq in Hkeys. rewrite <-Hvals.
    by rewrite length_fmap. }
  split; [|done]. unfold getPaths. rewrite <-Hvals.
  apply (numbered_object nameAlias). rewrite Hkeys, Hvals. by rewrite Hlen.
Qed.

Lemma names_in_request_order_witness :
  let rs := [ReqPath "b.a[1]"; ReqValue VNull; ReqPath "a.c.b"] in
  (names new = [] /\ nextName new = 0) /\
  getPaths (requests rs new).2 = [("#n0", "b"); ("#n1", "a"); ("#n2", "c")].
Proof.
  intros rs. split; [split; reflexivity|].
  assert (Hdef : defaultPredicates new) by (split; intros n; reflexivity).
  exact (proj1 (names_in_request_order new rs Hdef eq_refl eq_refl)).
Defined.

Lemma suppliedValues_length rs :
  length (suppliedValues rs) = countValues rs.
Proof.
  unfold suppliedValues, countValues.
  induction rs as [|[p|v] rs IH]; [done| |].
  - rewrite filter_cons_False by done. exact IH.
  - rewrite filter_cons_True by done. cbn [length]. rewrite <-IH. done.
Qed.

Lemma requests_supplied rs ea :
  valuesInv ea ->
  (values (requests rs ea).2).*2 = (values ea).*2 ++ suppliedValues rs.
Proof.
  revert ea. induction rs as [|r rs IH]; intros ea Hinv.
  - simpl. by rewrite app_nil_r.
  - pose proof (requests_values [r] ea Hinv) as [Hinv1 _].
    simpl in *. destruct (request r ea) as [a ea1] eqn:Hr. simpl in *.
    pose proof (IH ea1 Hinv1) as Hrs.
    destruct (requests rs ea1) as [outs ea2]. simpl in *. rewrite Hrs.
    destruct r as [p|v]; simpl in Hr.
    + pose proof (addPath_values p ea) as [Hv _]. rewrite Hr in Hv.
      simpl in Hv. by rewrite Hv.
    + unfold addValue in Hr. injection Hr as _ <-. simpl.
      assert (Hfresh : valueAlias (nextValue ea) ∉ Obj.keys (values ea)).
      { rewrite Hinv. intros (j & Hj%valueAlias_inj & Hin)%list_elem_of_fmap.
        apply elem_of_seq in Hin. lia. }
      fold (valueAlias (nextValue ea)). rewrite obj_set_fresh by done.
      by rewrite fmap_app, <-(assoc_L (++)).
Qed.

(** X8. On an instance with no value registered, the exported values
    object lists the values handed to [addValue], in call order and equal
    values included, under the aliases [:v0], [:v1], ... in that order; the
    counter is the number of calls. *)
Theorem values_in_call_order (ea0 : ExpressionAttributes.t)
  (rs : list Request) :
  values ea0 = [] -> nextValue ea0 = 0 ->
  getValues (requests rs ea0).2
  = imap (fun i v => (":v" +:+ pretty i, v)) (suppliedValues rs) /\
  nextValue (requests rs ea0).2 = length (suppliedValues rs).
Proof.
  intros Hv Hk. pose proof (fresh_valuesInv ea0 Hv Hk) as Hinv.
  pose proof (requests_supplied rs ea0 Hinv) as Hvals.
  rewrite Hv in Hvals. simpl in Hvals.
  pose proof (requests_values rs ea0 Hinv) as [Hkeys _].
  pose proof (requests_nextValue rs ea0) as Hnext.
  rewrite Hk in Hnext. simpl in Hnext.
  split; [|by rewrite Hnext, suppliedValues_length].
  unfold getValues. rewrite <-Hvals.
  apply (numbered_object valueAlias). unfold valuesInv in Hkeys.
  by rewrite Hkeys, Hvals, Hnext, suppliedValues_length.
Qed.

Lemma values_in_call_order_witness :
  let rs := [ReqValue (VNum 7); ReqPath "a"; ReqValue (VNum 7)] in
  (values new = [] /\ nextValue new = 0) /\
  getValues (requests rs new).2 = [(":v0", VNum 7); (":v1", VNum 7)].
Proof.
  intros rs. split; [split; reflexivity|].
  exact (proj1 (values_in_call_order new rs eq_refl eq_refl)).
Defined.

End Numbering.

Section MoreNameWitnesses.
Import ExpressionAttributes AttributeName Requested.

Lemma addPath_identifiers_witness :
  (treatNameAsPath MoreSamples.identifierAware = true /\
   isValidAttributeName "rev2" = true /\
   isValidAttributeName "2rev" = false /\
   isValidAttributeName "a.b" = false) /\
  addPath "spouse.age.rev2" MoreSamples.identifierAware
  = ("spouse.age.rev2", MoreSamples.identifierAware).
Proof.
  split; [repeat split; reflexivity|].
  assert (Hsegs : Forall (fun seg =>
            isValidAttributeName seg = true /\
            isReservedName MoreSamples.identifierAware seg = false)
            ["spouse"; "age"; "rev2"]) by (repeat constructor).
  assert (Hne : ["spouse"; "age"; "rev2"] <> []) by discriminate.
  exact (proj2 (proj2 (addPath_identifiers MoreSamples.identifierAware
    ["spouse"; "age"; "rev2"] (fun n => eq_refl) eq_refl Hne Hsegs))).
Defined.

Lemma reservedSize_apart : reservedApart Samples.reservedSize.
Proof.
  intros r i Hr ->. simpl in Hr.
  change ("n" +:+ pretty i) with (String "n" (pretty i)) in Hr.
  discriminate Hr.
Qed.

Lemma aliases_never_rebound_witness :
  let rs1 := [ReqPath "size.a"] in
  let rs2 := [ReqPath "b.size"; ReqPath "n0"] in
  (names Samples.reservedSize = [] /\
   Obj.get (getPaths (requests rs1 Samples.reservedSize).2) "#n0"
   = Some "a") /\
  Obj.get (getPaths (requests (rs1 ++ rs2) Samples.reservedSize).2) "#n0"
  = Some "a".
Proof.
  intros rs1 rs2. split; [split; reflexivity|].
  exact (aliases_never_rebound Samples.reservedSize rs1 rs2 "#n0" "a"
           reservedSize_apart eq_refl eq_refl).
Defined.

End MoreNameWitnesses.

(** ** Table and Index: keys, queries and scans *)

Section KeysAndQueries.
Import ExpressionAttributes.
Implicit Types (ks : Obj.t Table.KeyTypes) (keys : list string).
Implicit Types (type : Table.KeyTypes) (k : string).

Lemma KeyTypes_eqb_eq (a b : Table.KeyTypes) :
  Table.KeyTypes_eqb a b = true <-> a = b.
Proof. by destruct a, b. Qed.

Lemma getKeyNameLoop_result ks keys type :
  Table.getKeyNameLoop ks keys type = "" \/
  Obj.get ks (Table.getKeyNameLoop ks keys type) = Some type.
Proof.
  induction keys as [|key keys IH]; simpl; [by left|].
  destruct (Obj.get ks key) as [kt|] eqn:Hget; [|done].
  destruct (Table.KeyTypes_eqb kt type) eqn:E; [|done].
  apply KeyTypes_eqb_eq in E as ->. by right.
Qed.

Lemma getKeyNameLoop_none ks keys type :
  (forall k, k ∈ keys -> Obj.get ks k <> Some type) ->
  Table.getKeyNameLoop ks keys type = "".
Proof.
  induction keys as [|key keys IH]; simpl; [done|]. intros Hno.
  assert (Hrest : forall k, k ∈ keys -> Obj.get ks k <> Some type)
    by (intros k ?; apply Hno; by right).
  destruct (Obj.get ks key) as [kt|] eqn:Hget; [|by apply IH].
  destruct (Table.KeyTypes_eqb kt type) eqn:E; [|by apply IH].
  apply KeyTypes_eqb_eq in E as ->. exfalso. apply (Hno key); [by left|done].
Qed.

Lemma getKeyNameLoop_found ks keys type k :
  k ∈ keys -> Obj.get ks k = Some type ->
  Obj.get ks (Table.getKeyNameLoop ks keys type) = Some type.
Proof.
  induction keys as [|key keys IH]; simpl; [by intros ?%elem_of_nil|].
  intros Hin Hk.
  destruct (Obj.get ks key) as [kt|] eqn:Hget.
  - destruct (Table.KeyTypes_eqb kt type) eqn:E.
    + apply KeyTypes_eqb_eq in E as ->. done.
    + apply elem_of_cons in Hin as [->|Hin]; [|by apply IH].
      rewrite Hget in Hk. injection Hk as ->.
      by rewrite (proj2 (KeyTypes_eqb_eq type type) eq_refl) in E.
  - apply elem_of_cons in Hin as [->|Hin]; [congruence|by apply IH].
Qed.

(** X9. [getKeyName] returns a key of the schema that has the type asked
    for whenever the schema has one, and the empty string when it has
    none. *)
Theorem getKeyName_of_type (keySchema : Obj.t Table.KeyTypes)
  (type : Table.KeyTypes) :
  ((exists k, Obj.get keySchema k = Some type) ->
   Obj.get keySchema (Table.getKeyName keySchema type) = Some type) /\
  ((forall k, Obj.get keySchema k <> Some type) ->
   Table.getKeyName keySchema type = "").
Proof.
  unfold Table.getKeyName. split.
  - intros [k Hk]. eapply getKeyNameLoop_found; [|exact Hk].
    by eapply obj_get_Some_keys.
  - intros Hno. apply getKeyNameLoop_none. intros k _. apply Hno.
Qed.

(** X10. The partition key and the sort key of a table, and of an index,
    are different attributes, unless both are the empty string. *)
Theorem partition_and_sort_keys_differ (tbl : Table.t) (idx : Index.t) :
  (Table.getPartitionKey tbl <> Table.getSortKey tbl \/
   (Table.getPartitionKey tbl = "" /\ Table.getSortKey tbl = "")) /\
  (Index.getPartitionKey idx <> Index.getSortKey idx \/
   (Index.getPartitionKey idx = "" /\ Index.getSortKey idx = "")).
Proof.
  assert (H : forall ks,
    Table.getKeyName ks Table.HASH <> Table.getKeyName ks Table.RANGE \/
    (Table.getKeyName ks Table.HASH = "" /\
     Table.getKeyName ks Table.RANGE = "")).
  { intros ks. unfold Table.getKeyName.
    set (pk := Table.getKeyNameLoop ks (Obj.keys ks) Table.HASH).
    set (sk := Table.getKeyNameLoop ks (Obj.keys ks) Table.RANGE).
    destruct (decide (pk = sk)) as [Heq|Hne]; [right|by left].
    destruct (getKeyNameLoop_result ks (Obj.keys ks) Table.HASH) as [Hp|Hp];
      fold pk in Hp; [split; congruence|].
    destruct (getKeyNameLoop_result ks (Obj.keys ks) Table.RANGE) as [Hs|Hs];
      fold sk in Hs; [split; congruence|].
    rewrite <-Heq, Hp in Hs. discriminate Hs. }
  split; apply H.
Qed.

End KeysAndQueries.

Section QueriesAndScans.
Import ExpressionAttributes.

Lemma plainQueries_frame : query_frame plainQueries.
Proof.
  split.
  - intros key ea params k Hk. simpl. by rewrite obj_get_set_ne.
  - intros conds ea params k Hk. simpl.
    destruct conds as [[|c cs]|]; simpl; try done.
    by rewrite obj_get_set_ne.
Qed.

(** What [queryParams] and [scanParams] leave of the object they start
    from. *)
Lemma queryParams_frame {C : ConditionModule} (Q : QueryModule C) tbl key
  (options : Table.Options C) k :
  query_frame Q ->
  k <> "KeyConditionExpression" -> k <> "FilterExpression" ->
  k <> "ExpressionAttributeNames" -> k <> "ExpressionAttributeValues" ->
  Obj.get (TableQuery.queryParams Q tbl key options) k =
  Obj.get (Obj.set (Obj.spread [] (default [] (Table.params options)))
             "TableName" (VStr (Table.name tbl))) k.
Proof.
  intros [Hkey Hfilter] H1 H2 H3 H4. unfold TableQuery.queryParams.
  match goal with
  | |- context [keyConditionAddParam Q ?x ?a ?p] =>
      pose proof (Hkey x a p k H1) as Hk;
      destruct (keyConditionAddParam Q x a p) as [a1 p1]
  end.
  match goal with
  | |- context [addAndFilterParam Q ?c ?a ?p] =>
      pose proof (Hfilter c a p k H2) as Hf;
      destruct (addAndFilterParam Q c a p) as [a2 p2]
  end.
  simpl in Hk, Hf. by rewrite addParams_frame, Hf, Hk.
Qed.

Lemma scanParams_frame {C : ConditionModule} (Q : QueryModule C) tbl
  (options : Table.Options C) k :
  query_frame Q ->
  k <> "FilterExpression" ->
  k <> "ExpressionAttributeNames" -> k <> "ExpressionAttributeValues" ->
  Obj.get (TableQuery.scanParams Q tbl options) k =
  Obj.get (Obj.set (Obj.spread [] (default [] (Table.params options)))
             "TableName" (VStr (Table.name tbl))) k.
Proof.
  intros [_ Hfilter] H2 H3 H4. unfold TableQuery.scanParams.
  match goal with
  | |- context [addAndFilterParam Q ?c ?a ?p] =>
      pose proof (Hfilter c a p k H2) as Hf;
      destruct (addAndFilterParam Q c a p) as [a2 p2]
  end.
  simpl in Hf. by rewrite addParams_frame, Hf.
Qed.

(** X11. Whatever the options, and whatever the key condition and the
    filter add as long as each keeps to its own entry, [queryParams] and
    [scanParams] return [TableName] as the name of the table, and every
    other entry the caller put in [options.params], the expression entries
    apart, as the caller put it. *)
Theorem query_scan_TableName (C : ConditionModule) (Q : QueryModule C)
  (tbl : Table.t) (key : KeyQueryMap Q) (options : Table.Options C)
  (k : string) :
  query_frame Q ->
  k <> "TableName" ->
  k <> "KeyConditionExpression" -> k <> "FilterExpression" ->
  k <> "ExpressionAttributeNames" -> k <> "ExpressionAttributeValues" ->
  Obj.get (TableQuery.queryParams Q tbl key options) "TableName"
  = Some (VStr (Table.name tbl)) /\
  Obj.get (TableQuery.scanParams Q tbl options) "TableName"
  = Some (VStr (Table.name tbl)) /\
  Obj.get (TableQuery.queryParams Q tbl key options) k
  = Obj.get (default [] (Table.params options)) k /\
  Obj.get (TableQuery.scanParams Q tbl options) k
  = Obj.get (default [] (Table.params options)) k.
Proof.
  intros HQ Ht H1 H2 H3 H4.
  rewrite !queryParams_frame, !scanParams_frame by done.
  rewrite obj_get_set_eq, obj_get_set_ne, obj_get_spread by done.
  repeat split; try done; by destruct (Obj.get _ k).
Qed.

Lemma query_scan_TableName_witness :
  let options : Table.Options plainConditions :=
    Table.mkOptions (C := plainConditions) None (Some ["size > :v0"])
      (Some [("TableName", VStr "Other"); ("Limit", VNum 10)]) None in
  query_frame plainQueries /\
  Obj.get (TableQuery.queryParams plainQueries Samples.mainTable
             "P = :v1" options) "TableName" = Some (VStr "MainTable") /\
  Obj.get (TableQuery.scanParams plainQueries Samples.mainTable options)
    "Limit" = Some (VNum 10).
Proof.
  intros options. split; [exact plainQueries_frame|].
  assert (H1 : "Limit" <> "TableName") by discriminate.
  assert (H2 : "Limit" <> "KeyConditionExpression") by discriminate.
  assert (H3 : "Limit" <> "FilterExpression") by discriminate.
  assert (H4 : "Limit" <> "ExpressionAttributeNames") by discriminate.
  assert (H5 : "Limit" <> "ExpressionAttributeValues") by discriminate.
  pose proof (query_scan_TableName plainConditions plainQueries
    Samples.mainTable "P = :v1" options "Limit" plainQueries_frame
    H1 H2 H3 H4 H5) as (Hq & _ & _ & Hs).
  split; [exact Hq|exact Hs].
Defined.

Lemma indexOptions_IndexName {C : ConditionModule} idx
  (options : Table.Options C) :
  Obj.get (default [] (Table.params (Index.getQueryOptions idx options)))
    "IndexName"
  = Some (default (VStr (Index.name idx))
            (Obj.get (default [] (Table.params options)) "IndexName")).
Proof.
  simpl. rewrite obj_get_spread.
  by destruct (Obj.get (default [] (Table.params options)) "IndexName").
Qed.

(** X12. An index that was given its table builds the request of that
    table: [TableName] is the name of the table, and [IndexName] is the
    name of the index unless the caller's [options.params] has an
    [IndexName], which then stands.  An index without a table builds
    nothing. *)
Theorem index_query_scan (C : ConditionModule) (Q : QueryModule C)
  (idx : Index.t) (tbl : Table.t) (key : KeyQueryMap Q)
  (options : Table.Options C) :
  query_frame Q ->
  let indexName :=
    default (VStr (Index.name idx))
      (Obj.get (default [] (Table.params options)) "IndexName") in
  (exists out,
      Index.queryParams Q (Index.init idx tbl) key options = Some out /\
      Obj.get out "TableName" = Some (VStr (Table.name tbl)) /\
      Obj.get out "IndexName" = Some indexName) /\
  (exists out,
      Index.scanParams Q (Index.init idx tbl) options = Some out /\
      Obj.get out "TableName" = Some (VStr (Table.name tbl)) /\
      Obj.get out "IndexName" = Some indexName) /\
  (Index.table idx = None ->
   Index.queryParams Q idx key options = None /\
   Index.scanParams Q idx options = None).
Proof.
  intros HQ indexName. split; [|split].
  - eexists. split; [reflexivity|].
    rewrite !queryParams_frame by done.
    rewrite obj_get_set_eq, obj_get_set_ne by done. split; [done|].
    rewrite obj_get_spread.
    by rewrite (indexOptions_IndexName (Index.init idx tbl) options).
  - eexists. split; [reflexivity|].
    rewrite !scanParams_frame by done.
    rewrite obj_get_set_eq, obj_get_set_ne by done. split; [done|].
    rewrite obj_get_spread.
    change (Index.getScanOptions ?i ?o) with (Index.getQueryOptions i o).
    by rewrite (indexOptions_IndexName (Index.init idx tbl) options).
  - unfold Index.queryParams, Index.scanParams. by intros ->.
Qed.

Lemma index_query_scan_witness :
  query_frame plainQueries /\
  (exists out,
      Index.scanParams plainQueries
        (Index.init MoreSamples.gsi0 Samples.mainTable)
        (Table.noOptions (C := plainConditions)) = Some out /\
      Obj.get out "TableName" = Some (VStr "MainTable") /\
      Obj.get out "IndexName" = Some (VStr "GSI0")).
Proof.
  split; [exact plainQueries_frame|].
  exact (proj1 (proj2 (index_query_scan plainConditions plainQueries
    MoreSamples.gsi0 Samples.mainTable "P = :v0" Table.noOptions
    plainQueries_frame))).
Defined.

End QueriesAndScans.

(** ** Model: the order of a split, and the split undone *)

Section SplitOrder.
Import Attributes KeyOrder.
Implicit Types (data key item : Obj.t jsval) (name k : string).
Implicit Types (ks : list string).

Lemma obj_spread_copy {V} (src : Obj.t V) :
  NoDup (Obj.keys src) -> Obj.spread [] src = src.
Proof.
  unfold Obj.spread.
  assert (Hgen : forall (done_ rest : Obj.t V),
    NoDup (Obj.keys (done_ ++ rest)) ->
    fold_left (fun acc k =>
        match Obj.get (done_ ++ rest) k with
        | Some v => Obj.set acc k v
        | None => acc
        end) (Obj.keys rest) done_ = done_ ++ rest).
  { intros done_ rest. revert done_.
    induction rest as [|[k v] rest IH]; intros done_ Hnd; simpl.
    - by rewrite app_nil_r.
    - assert (Hk : k ∉ Obj.keys done_).
      { unfold Obj.keys in *. rewrite fmap_app in Hnd.
        apply NoDup_app in Hnd as (_ & Hd & _). intros Hin.
        apply (Hd _ Hin). simpl. by left. }
      rewrite (obj_get_mid done_ rest k v Hk), obj_set_fresh by done.
      specialize (IH (done_ ++ [(k, v)])).
      rewrite <-!(assoc_L (++)) in IH. simpl in IH. by apply IH. }
  intros Hnd. by apply (Hgen [] src).
Qed.

Lemma obj_delete_filter {V} (o : list (string * V)) k :
  Obj.delete o k = filter (fun e => e.1 <> k) o.
Proof.
  induction o as [|[k' v'] o IH]; [done|]. cbn [Obj.delete].
  destruct (String.eqb_spec k' k) as [->|Hne].
  - rewrite filter_cons_False by (simpl; intros H; by apply H). done.
  - rewrite filter_cons_True by done. by rewrite IH.
Qed.

Lemma filter_on_elements {A} (P Q : A -> Prop)
  `{!forall x, Decision (P x)} `{!forall x, Decision (Q x)} (l : list A) :
  (forall x, x ∈ l -> P x <-> Q x) -> filter P l = filter Q l.
Proof.
  induction l as [|x l IH]; intros Hiff; [done|].
  assert (Hrest : filter P l = filter Q l).
  { apply IH. intros y ?. apply Hiff. by right. }
  destruct (decide (P x)) as [Hp|Hp].
  - rewrite !filter_cons_True; [by rewrite Hrest| |done].
    apply Hiff; [by left|done].
  - rewrite !filter_cons_False; [done| |done].
    intros Hq. apply Hp, Hiff; [by left|done].
Qed.

Lemma filter_keeps_all {A} (P : A -> Prop) `{!forall x, Decision (P x)}
  (l : list A) :
  (forall x, x ∈ l -> P x) -> filter P l = l.
Proof.
  induction l as [|x l IH]; intros Hall; [done|].
  rewrite filter_cons_True by (apply Hall; by left).
  f_equal. apply IH. intros y ?. apply Hall. by right.
Qed.

Lemma filter_twice {A} (P Q R : A -> Prop)
  `{!forall x, Decision (P x)} `{!forall x, Decision (Q x)}
  `{!forall x, Decision (R x)} (l : list A) :
  (forall x, P x /\ Q x <-> R x) -> filter P (filter Q l) = filter R l.
Proof.
  intros Hiff. induction l as [|x l IH]; [done|].
  destruct (decide (Q x)) as [Hq|Hq].
  - rewrite (filter_cons_True Q) by done.
    destruct (decide (P x)) as [Hp|Hp].
    + rewrite !filter_cons_True; [by rewrite IH| |done].
      by apply Hiff.
    + rewrite !filter_cons_False; [done| |done].
      intros [? _]%Hiff. done.
  - rewrite (filter_cons_False Q) by done.
    rewrite (filter_cons_False R); [done|]. intros [_ ?]%Hiff. done.
Qed.

(** The item side of the [forEach] of [splitTableData]. *)
Lemma ownStep_fold_item data ks key item :
  (fold_left (ownStep data) ks (key, item)).2
  = filter (fun e => ~ (e.1 ∈ ks /\ definedIn data e.1 = true))
      (item : list (string * jsval)).
Proof.
  revert key item. induction ks as [|k ks IH]; intros key item.
  - simpl. symmetry. apply filter_keeps_all.
    by intros e _ [?%elem_of_nil _].
  - cbn [fold_left]. destruct (definedIn data k) eqn:Hk.
    + destruct (ownStep_defined data key item k Hk) as (v & Hv & ->).
      rewrite IH, obj_delete_filter. apply filter_twice. intros e. split.
      * intros [Hno Hne] [[?|?]%elem_of_cons Hd]; [done|]. by apply Hno.
      * intros Hno. split.
        -- intros [? ?]. apply Hno. split; [by right|done].
        -- intros He. apply Hno. rewrite He. split; [by left|done].
    + rewrite ownStep_undefined by done. rewrite IH.
      apply filter_on_elements. intros e _. split.
      * intros Hno [[->|?]%elem_of_cons Hd]; [congruence|]. by apply Hno.
      * intros Hno [? ?]. apply Hno. split; [by right|done].
Qed.

(** The key side of the [forEach] of [splitTableData]. *)
Lemma ownStep_fold_key data ks key item :
  NoDup ks -> (forall k, k ∈ ks -> k ∉ Obj.keys key) ->
  (fold_left (ownStep data) ks (key, item)).1
  = key ++ omap (keyEntry data) ks.
Proof.
  revert key item. induction ks as [|k ks IH]; intros key item Hnd Hfresh.
  - simpl. by rewrite app_nil_r.
  - apply NoDup_cons in Hnd as [Hk Hnd]. cbn [fold_left omap list_omap].
    unfold keyEntry at 1. destruct (definedIn data k) eqn:Hd.
    + destruct (ownStep_defined data key item k Hd) as (v & Hv & ->).
      unfold definedIn in Hd. rewrite Hv in Hd |- *.
      destruct (is_undefined v); [done|].
      rewrite obj_set_fresh by (apply Hfresh; by left).
      rewrite IH; [by rewrite <-(assoc_L (++))|done|].
      intros k' Hk'. unfold Obj.keys. rewrite fmap_app, elem_of_app.
      intros [?|?%list_elem_of_singleton].
      * by apply (Hfresh k'); [right|].
      * by subst.
    + rewrite ownStep_undefined by done.
      unfold definedIn in Hd.
      assert (Hnone : match Obj.get data k with
                      | Some v => if is_undefined v then None
                                  else Some (k, v)
                      | None => None
                      end = None).
      { destruct (Obj.get data k) as [v|]; [|done].
        by destruct (is_undefined v). }
      rewrite Hnone. apply IH; [done|]. intros k' ?. apply Hfresh. by right.
Qed.

(** X13. [splitTableData] keeps the order of things.  For objects with
    distinct property names, and a key schema whose names the attribute
    map answers from its own properties or not at all: the item is the
    attribute map with the key entries taken out, the other attributes in
    their order; the key lists the key attributes that have a defined value
    in the order of the key schema, whatever their order in the map. *)
Theorem splitTableData_order (table : Table.t) (data : Obj.t jsval) :
  NoDup (Obj.keys data) -> NoDup (Obj.keys (Table.keySchema table)) ->
  forallb (ownOrAbsent data) (Obj.keys (Table.keySchema table)) = true ->
  Model.splitTableData table data
  = Some (omap (keyEntry data) (Obj.keys (Table.keySchema table)),
          filter (fun entry => ~ isKeyEntry table entry)
            (data : list (string * jsval))).
Proof.
  intros Hdata Hschema Hown. rewrite splitTableData_own by done.
  f_equal. unfold ownSplit.
  rewrite (obj_spread_copy data Hdata).
  rewrite (surjective_pairing (fold_left _ _ _)). f_equal.
  - rewrite ownStep_fold_key; [done|done|].
    intros k _. apply not_elem_of_nil.
  - rewrite ownStep_fold_item. apply filter_on_elements.
    intros [n v] Hin. unfold isKeyEntry, definedIn. simpl.
    rewrite (obj_get_elem data n v Hdata Hin).
    destruct (is_undefined v); simpl; split; intros Hno [? ?];
      apply Hno; by split.
Qed.

Lemma splitTableData_order_witness :
  let data := [("S", VStr "id2"); ("name", VStr "n"); ("P", VStr "id1");
               ("rev", VNum 1)] in
  forallb (ownOrAbsent data)
    (Obj.keys (Table.keySchema Samples.mainTable)) = true /\
  Model.splitTableData Samples.mainTable data
  = Some ([("P", VStr "id1"); ("S", VStr "id2")],
          [("name", VStr "n"); ("rev", VNum 1)]).
Proof.
  intros data. split; [reflexivity|].
  assert (Hdata : NoDup (Obj.keys data))
    by (apply (bool_decide_unpack _); vm_compute; exact I).
  assert (Hschema : NoDup (Obj.keys (Table.keySchema Samples.mainTable)))
    by (apply (bool_decide_unpack _); vm_compute; exact I).
  exact (splitTableData_order Samples.mainTable data Hdata Hschema eq_refl).
Defined.

(** The key and the item of a split over own properties, merged again,
    are the attribute map that was split. *)
Lemma split_merged (table : Table.t) (data : Obj.t jsval) :
  Obj.to_map
    (Obj.spread (Obj.spread [] (ownSplit table data).1)
       (ownSplit table data).2)
  = Obj.to_map data.
Proof.
  rewrite merged_item, ownSplit_key, ownSplit_item.
  rewrite map_union_comm by
    (symmetry; apply map_disjoint_filter_complement).
  apply map_filter_union_complement.
Qed.

End SplitOrder.

(** ** Model: the methods that drive the fields *)

Section ModelFacts.
Import Attributes.
Implicit Types (m : ModelMethods.t) (data td : Obj.t jsval).

(** X14. When the fields produce an attribute map that answers every name
    of the key schema from its own properties or not at all,
    [Model.putParams] builds a request whose [Item] holds exactly that
    map, key attributes and others together, under the name of the table;
    when a field fails, no request is built. *)
Theorem model_putParams_item (C : ConditionModule) (m : ModelMethods.t)
  (data td : Obj.t jsval) (options : Table.Options C) :
  condition_frame C ->
  (ModelMethods.tableDataOf m data = Some td ->
   forallb (ownOrAbsent td)
     (Obj.keys (Table.keySchema (ModelMethods.table m))) = true ->
   exists out merged,
     ModelMethods.putParams m data options = Some out /\
     Obj.get out "TableName"
       = Some (VStr (Table.name (ModelMethods.table m))) /\
     Obj.get out "Item" = Some (VObj merged) /\
     Obj.to_map merged = Obj.to_map td) /\
  (ModelMethods.tableDataOf m data = None ->
   ModelMethods.putParams m data options = None).
Proof.
  intros Hframe. unfold ModelMethods.putParams, ModelMethods.toTable.
  split; [intros -> Hown|by intros ->]. cbn [mbind option_bind].
  rewrite splitTableData_own by done. cbn [mbind option_bind].
  destruct (putParams_fields C (ModelMethods.table m)
              (ownSplit (ModelMethods.table m) td).1
              (Some (ownSplit (ModelMethods.table m) td).2)
              options Hframe) as (Ht & Hi & _).
  cbn zeta in *. eexists. eexists. split; [done|]. split; [exact Ht|].
  split; [exact Hi|]. apply split_merged.
Qed.

Lemma model_putParams_item_witness :
  let data := [("P", VStr "id1"); ("name", VStr "n"); ("extra", VNum 1)] in
  (condition_frame plainConditions /\
   ModelMethods.tableDataOf MoreSamples.plainModel data
   = Some [("name", VStr "n"); ("P", VStr "id1")] /\
   forallb (ownOrAbsent [("name", VStr "n"); ("P", VStr "id1")])
     (Obj.keys (Table.keySchema Samples.mainTable)) = true) /\
  exists out merged,
    ModelMethods.putParams (C := plainConditions) MoreSamples.plainModel
      data Table.noOptions = Some out /\
    Obj.get out "TableName" = Some (VStr "MainTable") /\
    Obj.get out "Item" = Some (VObj merged) /\
    Obj.to_map merged
    = Obj.to_map [("name", VStr "n"); ("P", VStr "id1")].
Proof.
  intros data.
  split; [split; [exact plainConditions_frame|split; reflexivity]|].
  exact (proj1 (model_putParams_item plainConditions
    MoreSamples.plainModel data [("name", VStr "n"); ("P", VStr "id1")]
    Table.noOptions plainConditions_frame) eq_refl eq_refl).
Defined.

(** X15. When the fields produce an attribute map that answers every name
    of the key schema from its own properties or not at all,
    [Model.getParams] and [Model.deleteParams] build a request whose [Key]
    holds exactly the attributes of that map that are named in the key
    schema and have a defined value. *)
Theorem model_key_params (C : ConditionModule) (m : ModelMethods.t)
  (key td : Obj.t jsval) (options : Table.Options C) :
  condition_frame C ->
  ModelMethods.tableDataOf m key = Some td ->
  forallb (ownOrAbsent td)
    (Obj.keys (Table.keySchema (ModelMethods.table m))) = true ->
  (exists out tableKey,
      ModelMethods.getParams m key options = Some out /\
      Obj.get out "Key" = Some (VObj tableKey) /\
      Obj.to_map tableKey
      = filter (isKeyEntry (ModelMethods.table m)) (Obj.to_map td)) /\
  (exists out tableKey,
      ModelMethods.deleteParams m key options = Some out /\
      Obj.get out "Key" = Some (VObj tableKey) /\
      Obj.to_map tableKey
      = filter (isKeyEntry (ModelMethods.table m)) (Obj.to_map td)).
Proof.
  intros Hframe Htd Hown.
  unfold ModelMethods.getParams, ModelMethods.deleteParams,
    ModelMethods.toTableKey, ModelMethods.toTable.
  rewrite Htd. cbn [mbind option_bind].
  rewrite splitTableData_own by done.
  cbn [mbind option_bind fmap option_fmap option_map]. split.
  - eexists. eexists. split; [done|]. split; [apply keyedParams_Key|].
    apply ownSplit_key.
  - eexists. eexists. split; [done|]. split; [|apply ownSplit_key].
    unfold Table.deleteParams.
    match goal with
    | |- context [addAndParam C ?c ?a ?p] =>
        pose proof (Hframe c a p) as Hf;
        destruct (addAndParam C c a p) as [a' p']
    end.
    simpl in Hf. rewrite addParams_frame, Hf by done.
    apply keyedParams_Key.
Qed.

Lemma model_key_params_witness :
  let key := [("P", VStr "id1"); ("name", VStr "n")] in
  (condition_frame plainConditions /\
   ModelMethods.tableDataOf MoreSamples.plainModel key
   = Some [("name", VStr "n"); ("P", VStr "id1")] /\
   forallb (ownOrAbsent [("name", VStr "n"); ("P", VStr "id1")])
     (Obj.keys (Table.keySchema Samples.mainTable)) = true) /\
  exists out tableKey,
    ModelMethods.getParams (C := plainConditions) MoreSamples.plainModel
      key Table.noOptions = Some out /\
    Obj.get out "Key" = Some (VObj tableKey) /\
    Obj.to_map tableKey
    = filter (isKeyEntry Samples.mainTable)
        (Obj.to_map [("name", VStr "n"); ("P", VStr "id1")]).
Proof.
  intros key.
  split; [split; [exact plainConditions_frame|split; reflexivity]|].
  exact (proj1 (model_key_params plainConditions MoreSamples.plainModel
    key [("name", VStr "n"); ("P", VStr "id1")] Table.noOptions
    plainConditions_frame eq_refl eq_refl)).
Defined.

(** X16. When the split gives a key and an item, [Model.put] answers with
    what [toModel] makes of the two merged again: what the store answers
    is not looked at, and when the store fails, so does [put].  The merged
    attributes are those the fields produced when the attribute map
    answers every name of the key schema from its own properties or not at
    all. *)
Theorem model_put_echo (C : ConditionModule) (m : ModelMethods.t)
  (client : ModelMethods.Client) (data td key item : Obj.t jsval)
  (options : Table.Options C) :
  ModelMethods.tableDataOf m data = Some td ->
  Model.splitTableData (ModelMethods.table m) td = Some (key, item) ->
  let request :=
    Table.putParams (ModelMethods.table m) key (Some item) options in
  let written := Obj.spread (Obj.spread [] key) item in
  (forallb (ownOrAbsent td)
     (Obj.keys (Table.keySchema (ModelMethods.table m))) = true ->
   Obj.to_map written = Obj.to_map td) /\
  (forall answer,
      ModelMethods.clientPut client request = Some answer ->
      ModelMethods.put m client data options
      = ModelMethods.toModel m written) /\
  (ModelMethods.clientPut client request = None ->
   ModelMethods.put m client data options = None).
Proof.
  intros Htd Hsplit request written. split.
  - intros Hown. rewrite splitTableData_own in Hsplit by done.
    injection Hsplit as Hsplit. unfold written.
    replace key with (ownSplit (ModelMethods.table m) td).1
      by (by rewrite Hsplit).
    replace item with (ownSplit (ModelMethods.table m) td).2
      by (by rewrite Hsplit).
    apply split_merged.
  - unfold ModelMethods.put, ModelMethods.toTable. rewrite Htd.
    cbn [mbind option_bind]. rewrite Hsplit. cbn [mbind option_bind fst snd].
    fold request. split.
    + by intros answer ->.
    + by intros ->.
Qed.

Lemma model_put_echo_witness :
  let data := [("P", VStr "id1"); ("name", VStr "n")] in
  (ModelMethods.tableDataOf MoreSamples.plainModel data
   = Some [("name", VStr "n"); ("P", VStr "id1")] /\
   Model.splitTableData Samples.mainTable
     [("name", VStr "n"); ("P", VStr "id1")]
   = Some ([("P", VStr "id1")], [("name", VStr "n")])) /\
  ModelMethods.put (C := plainConditions) MoreSamples.plainModel
    MoreSamples.silentStore data Table.noOptions
  = ModelMethods.toModel MoreSamples.plainModel
      [("P", VStr "id1"); ("name", VStr "n")].
Proof.
  intros data. split; [split; reflexivity|].
  exact (proj1 (proj2 (model_put_echo plainConditions
    MoreSamples.plainModel MoreSamples.silentStore data
    [("name", VStr "n"); ("P", VStr "id1")] [("P", VStr "id1")]
    [("name", VStr "n")] Table.noOptions eq_refl eq_refl)) [] eq_refl).
Defined.

End ModelFacts.
